(** * apptranslator: the application registry of [main.go]

    A shallow embedding of the registry code of [main.go] (configuration
    records, the global [appState], [findApp], [addApp], [readAppData],
    [userIsAdmin], [s3BackupEnabled] and the start-up sequence of [main]),
    followed by the properties of that code.

    Go values are embedded as follows.
    - [string] is a byte string; [==] on strings is [String.eqb].
    - [*string] is [option string] ([None] is [nil]).
    - [*App] is a location in a heap of [App] objects; a location that is
      not allocated plays the part of [nil], and dereferencing it panics.
    - [error] is the format and the arguments given to [fmt.Errorf]
      ([errors.New msg] has no argument); [nil] is [None].
    - package-level variables are the fields of [State]; functions that
      read or write them live in the monad [M], whose outcomes are a normal
      return, [log.Fatalf] (the process exits) and a run-time panic.
    - functions of other packages are the fields of the class [Externals]. *)

From Stdlib Require Import Ascii String ZArith Lia.
From stdpp Require Import base option list gmap strings.

Local Open Scope string_scope.
Local Open Scope Z_scope.
Set Warnings "-clear-no-such-hyp".

(** ** Errors and fatal messages *)

(** [fmt.Errorf(format, args...)]; format strings are kept as they are
    written in the source, escape sequences included. *)
Record error := Errorf { format : string; args : list string }.

(** [errors.New(msg)] *)
Definition errors_New (msg : string) : error := Errorf msg [].

(** An operand of [log.Fatalf]. *)
Inductive fmtArg :=
| ArgString (s : string)
| ArgStrings (l : list string)
| ArgError (e : error)
| ArgNone.

Record fatalMsg := Fatalf { fatalFormat : string; fatalArgs : list fmtArg }.

(** ** Configuration *)

(** [AppConfig] is a static configuration of a single app. *)
Record AppConfig := mkAppConfig {
  Name : string;
  Url : string;
  DataDir : string;
  AdminTwitterUser : string;
  AdminTwitterUser2 : string;
  UploadSecret : string
}.

(** [oauth.Credentials] *)
Record Credentials := { Token : string; Secret : string }.

(** The anonymous struct of the package variable [config]. *)
Record Config := mkConfig {
  TwitterOAuthCredentials : option Credentials;
  cfgApps : list AppConfig;
  CookieAuthKeyHexStr : option string;
  CookieEncrKeyHexStr : option string;
  AwsAccess : option string;
  AwsSecret : option string;
  S3BackupBucket : option string;
  S3BackupDir : option string
}.

(** The command line, as [flag.Parse] leaves it. *)
Record Flags := mkFlags {
  configPath : string;
  httpAddr : string;
  inProduction : bool;
  noS3Backup : bool
}.

(** ** The file system *)

Inductive Node :=
| Dir
| File (content : string).

(** What the operating system answers for each path. *)
Definition FS := string → option Node.

(** [u.PathExists]: [os.Stat] succeeds. *)
Definition PathExists (fs : FS) (path : string) : bool :=
  match fs path with Some _ => true | None => false end.

(** [ioutil.ReadFile] *)
Definition ReadFile (fs : FS) (path : string) : string * option error :=
  match fs path with
  | Some (File b) => (b, None)
  | Some Dir => ("", Some (Errorf "read %s: is a directory" [path]))
  | None => ("", Some (Errorf "open %s: no such file or directory" [path]))
  end.

(** ** Other packages *)

Class Externals := {
  (** [strings.TrimSpace] *)
  strings_TrimSpace : string → string;
  (** [filepath.Join] *)
  filepath_Join : list string → string;
  (** [u.ExpandTildeInPath] *)
  u_ExpandTildeInPath : string → string;
  (** [json.Unmarshal(b, &config)]: the updated [config] and the error *)
  json_Unmarshal : string → Config → Config * option error;
  (** [hex.DecodeString] *)
  hex_DecodeString : string → string * option error;
  (** [securecookie.New(auth, encr).Encode(cookieName, val)], its error *)
  securecookie_Encode : string → string → option error;
  (** package [store]: the type [StoreCsv], the table [Languages] and
      the functions of [StoreCsv] that [main.go] calls *)
  StoreCsv : Type;
  Lang : Type;
  store_Languages : list Lang;
  store_NewStoreCsv : string → FS → FS * option StoreCsv * option error;
  StoreCsv_LangsCount : StoreCsv → Z;
  StoreCsv_StringsCount : StoreCsv → Z;
  StoreCsv_UntranslatedCount : StoreCsv → Z;
  StoreCsv_EditsCount : StoreCsv → Z
}.

(** ** Program state *)

Definition loc := nat.

Section Program.
Context `{Ext : Externals}.

(** [User] describes an user. *)
Record User := { Login : string }.

(** [App] describes an app: the embedded [AppConfig] and the store. *)
Record App := mkApp {
  App_AppConfig :> AppConfig;
  store : option StoreCsv
}.

(** [AppState] describes state of the app. *)
Record AppState := mkAppState {
  Users : list User;
  Apps : list loc
}.

Record State := mkState {
  flags : Flags;
  config : Config;
  cookieAuthKey : string;
  cookieEncrKey : string;
  dataDir : string;
  appState : AppState;
  alwaysLogTime : bool;
  reloadTemplates : bool;
  heap : gmap loc App;
  fs : FS;
  notices : list (string * list fmtArg)
}.

Definition set_config (c : Config) (σ : State) : State :=
  mkState (flags σ) c (cookieAuthKey σ) (cookieEncrKey σ) (dataDir σ)
    (appState σ) (alwaysLogTime σ) (reloadTemplates σ) (heap σ) (fs σ)
    (notices σ).

Definition set_cookieAuthKey (k : string) (σ : State) : State :=
  mkState (flags σ) (config σ) k (cookieEncrKey σ) (dataDir σ)
    (appState σ) (alwaysLogTime σ) (reloadTemplates σ) (heap σ) (fs σ)
    (notices σ).

Definition set_cookieEncrKey (k : string) (σ : State) : State :=
  mkState (flags σ) (config σ) (cookieAuthKey σ) k (dataDir σ)
    (appState σ) (alwaysLogTime σ) (reloadTemplates σ) (heap σ) (fs σ)
    (notices σ).

Definition set_dataDir (d : string) (σ : State) : State :=
  mkState (flags σ) (config σ) (cookieAuthKey σ) (cookieEncrKey σ) d
    (appState σ) (alwaysLogTime σ) (reloadTemplates σ) (heap σ) (fs σ)
    (notices σ).

Definition set_Apps (l : list loc) (σ : State) : State :=
  mkState (flags σ) (config σ) (cookieAuthKey σ) (cookieEncrKey σ)
    (dataDir σ) (mkAppState (Users (appState σ)) l) (alwaysLogTime σ)
    (reloadTemplates σ) (heap σ) (fs σ) (notices σ).

Definition set_logTime (always reload : bool) (σ : State) : State :=
  mkState (flags σ) (config σ) (cookieAuthKey σ) (cookieEncrKey σ)
    (dataDir σ) (appState σ) always reload (heap σ) (fs σ) (notices σ).

Definition set_heap (h : gmap loc App) (σ : State) : State :=
  mkState (flags σ) (config σ) (cookieAuthKey σ) (cookieEncrKey σ)
    (dataDir σ) (appState σ) (alwaysLogTime σ) (reloadTemplates σ) h
    (fs σ) (notices σ).

Definition set_fs (f : FS) (σ : State) : State :=
  mkState (flags σ) (config σ) (cookieAuthKey σ) (cookieEncrKey σ)
    (dataDir σ) (appState σ) (alwaysLogTime σ) (reloadTemplates σ)
    (heap σ) f (notices σ).

Definition set_notices (n : list (string * list fmtArg)) (σ : State) : State :=
  mkState (flags σ) (config σ) (cookieAuthKey σ) (cookieEncrKey σ)
    (dataDir σ) (appState σ) (alwaysLogTime σ) (reloadTemplates σ)
    (heap σ) (fs σ) n.

(** ** The monad of the program *)

Inductive Outcome (A : Type) :=
| Ret (a : A) (σ : State)
| Exit (m : fatalMsg)
| Panic.
Arguments Ret {A} a σ.
Arguments Exit {A} m.
Arguments Panic {A}.

Definition M (A : Type) := State → Outcome A.

Definition ret {A} (a : A) : M A := λ σ, Ret a σ.

Definition bind {A B} (m : M A) (f : A → M B) : M B := λ σ,
  match m σ with
  | Ret a σ' => f a σ'
  | Exit msg => Exit msg
  | Panic => Panic
  end.

Declare Scope M_scope.
Delimit Scope M_scope with M.
Notation "x ← y ; z" := (bind y (λ x, z))
  (at level 20, y at level 100, z at level 200, only parsing) : M_scope.
Notation "y ;; z" := (bind y (λ _, z))
  (at level 100, z at level 200, only parsing, right associativity) : M_scope.
Local Open Scope M_scope.

Definition get : M State := λ σ, Ret σ σ.
Definition modify (f : State → State) : M unit := λ σ, Ret tt (f σ).
Definition log_Fatalf {A} (fmt : string) (l : list fmtArg) : M A :=
  λ _, Exit (Fatalf fmt l).
Definition panic {A} : M A := λ _, Panic.

(** [*p] for [p : *App] *)
Definition deref (p : loc) : M App := λ σ,
  match heap σ !! p with
  | Some a => Ret a σ
  | None => Panic
  end.

(** [*p = a] *)
Definition assign (p : loc) (a : App) : M unit :=
  _ ← deref p; modify (λ σ, set_heap (<[p := a]> (heap σ)) σ).

(** [&App{...}] *)
Definition alloc (a : App) : M loc := λ σ,
  let p := fresh (dom (heap σ)) in
  Ret p (set_heap (<[p := a]> (heap σ)) σ).

(** [logger.Notice], [logger.Noticef]: the message is recorded. The
    type [ServerLogger] is declared in another file of the package. *)
Definition logger_Noticef (fmt : string) (l : list fmtArg) : M unit :=
  modify (λ σ, set_notices (notices σ ++ [(fmt, l)]) σ).
Definition logger_Notice (msg : string) : M unit := logger_Noticef msg [].

(** [fmt.Printf]: the message goes to the same record. *)
Definition fmt_Printf (fmt : string) (l : list fmtArg) : M unit :=
  logger_Noticef fmt l.

(** ** [main.go] *)

Definition len (s : string) : Z := Z.of_nat (String.length s).

Definition stringEmpty (s : option string) : bool :=
  match s with
  | None => true
  | Some v => 0 =? len v
  end.

Definition s3BackupEnabled : M bool :=
  σ ← get;
  if noS3Backup (flags σ) then
    _ ← logger_Notice "s3 backups disabled because -no-backup flag";
    ret false
  else if negb (inProduction (flags σ)) then
    _ ← logger_Notice "s3 backups disabled because not in production";
    ret false
  else if stringEmpty (AwsAccess (config σ)) then
    _ ← logger_Notice
          "s3 backups disabled because AwsAccess not defined in config.json\n";
    ret false
  else if stringEmpty (AwsSecret (config σ)) then
    _ ← logger_Notice
          "s3 backups disabled because AwsSecret not defined in config.json\n";
    ret false
  else if stringEmpty (S3BackupBucket (config σ)) then
    _ ← logger_Notice
          "s3 backups disabled because S3BackupBucket not defined in config.json\n";
    ret false
  else if stringEmpty (S3BackupDir (config σ)) then
    _ ← logger_Notice
          "s3 backups disabled because S3BackupDir not defined in config.json\n";
    ret false
  else ret true.

(** The [for ... range dirsToCheck] loop of [getDataDir] and the
    [log.Fatalf] that follows it. *)
Fixpoint getDataDir_range (dirs dirsToCheck : list string) : M string :=
  match dirs with
  | dir :: rest =>
      σ ← get;
      if PathExists (fs σ) dir then
        _ ← modify (set_dataDir dir);
        σ' ← get;
        ret (dataDir σ')
      else getDataDir_range rest dirsToCheck
  | [] => log_Fatalf "data directory (%v) doesn't exist\n" [ArgStrings dirsToCheck]
  end.

Definition getDataDir : M string :=
  σ ← get;
  if negb (dataDir σ =? "")%string then ret (dataDir σ)
  else
    let dirsToCheck :=
      [ filepath_Join [".."; ".."; "data"];
        u_ExpandTildeInPath "~/data/apptranslator" ] in
    getDataDir_range dirsToCheck dirsToCheck.

(** [NewApp] creates new App. *)
Definition NewApp (config : AppConfig) : M loc :=
  alloc (mkApp config None).

(** [LangsCount] returns number of languages; the receiver is not read. *)
Definition LangsCount (a : loc) : Z :=
  Z.of_nat (length store_Languages).

(** [a.store.F()]: the receiver [a] and its [store] are dereferenced. *)
Definition with_store (a : loc) (F : StoreCsv → Z) : M Z :=
  app ← deref a;
  match store app with
  | Some s => ret (F s)
  | None => panic
  end.

Definition StringsCount (a : loc) : M Z := with_store a StoreCsv_StringsCount.
Definition UntranslatedCount (a : loc) : M Z :=
  with_store a StoreCsv_UntranslatedCount.
Definition EditsCount (a : loc) : M Z := with_store a StoreCsv_EditsCount.

(** [getDataDir()] is called before [a.DataDir] is read. *)
Definition storeBinaryFilePath (a : loc) : M string :=
  d ← getDataDir;
  app ← deref a;
  let appDataDir := filepath_Join [d; DataDir app] in
  ret (filepath_Join [appDataDir; "translations.dat"]).

Definition storeCsvFilePath (a : loc) : M string :=
  d ← getDataDir;
  app ← deref a;
  let appDataDir := filepath_Join [d; DataDir app] in
  ret (filepath_Join [appDataDir; "translations.csv"]).

Definition readAppData (app : loc) : M (option error) :=
  path ← storeCsvFilePath app;
  σ ← get;
  if PathExists (fs σ) path then
    let '(fs', l, err) := store_NewStoreCsv path (fs σ) in
    _ ← modify (set_fs fs');
    match err with
    | None =>
        a ← deref app;
        _ ← assign app (mkApp a l);
        ret None
    | Some _ =>
        ret (Some (Errorf "readAppData: %q data file doesn't exist" [path]))
    end
  else ret (Some (Errorf "readAppData: %q data file doesn't exist" [path])).

(** The [for ... range appState.Apps] loop of [findApp]. *)
Fixpoint findApp_range (apps : list loc) (name : string) : M (option loc) :=
  match apps with
  | app :: rest =>
      a ← deref app;
      if (Name a =? name)%string then ret (Some app)
      else findApp_range rest name
  | [] => ret None
  end.

Definition findApp (name : string) : M (option loc) :=
  σ ← get;
  findApp_range (Apps (appState σ)) name.

Definition appAlreadyExists (name : string) : M bool :=
  r ← findApp name;
  ret (match r with Some _ => true | None => false end).

Definition appInvalidField (app : loc) : M string :=
  a ← deref app;
  _ ← assign app
        (mkApp (mkAppConfig (strings_TrimSpace (Name a)) (Url a) (DataDir a)
                  (AdminTwitterUser a) (AdminTwitterUser2 a) (UploadSecret a))
               (store a));
  a ← deref app;
  if (Name a =? "")%string then ret "Name"%string
  else if (DataDir a =? "")%string then ret "DataDir"%string
  else if (AdminTwitterUser a =? "")%string then ret "AdminTwitterUser"%string
  else if (UploadSecret a =? "")%string then ret "UploadSecret"%string
  else ret ""%string.

Definition addApp (app : loc) : M (option error) :=
  invalidField ← appInvalidField app;
  if negb (invalidField =? "")%string then
    ret (Some (Errorf "App has invalid field %q" [invalidField]))
  else
    a ← deref app;
    exists_ ← appAlreadyExists (Name a);
    if exists_ : bool then ret (Some (errors_New "App already exists"))
    else
      err ← readAppData app;
      match err with
      | Some e => ret (Some e)
      | None =>
          modify (λ σ, set_Apps (Apps (appState σ) ++ [app]) σ);;
          ret None
      end.

Definition isTopLevelURL (url : string) : bool :=
  (0 =? len url) || ("/" =? url)%string.

Definition userIsAdmin (app : loc) (user : string) : M bool :=
  if (user =? "")%string then ret false
  else
    a ← deref app;
    ret ((user =? AdminTwitterUser a)%string
          || (user =? AdminTwitterUser2 a)%string).

(** [readConfig] reads the configuration file from the path specified by
    the config command line flag. *)
Definition readConfig (configFile : string) : M (option error) :=
  σ ← get;
  let '(b, err) := ReadFile (fs σ) configFile in
  match err with
  | Some e => ret (Some e)
  | None =>
  let '(c, err) := json_Unmarshal b (config σ) in
  modify (set_config c);;
  match err with
  | Some e => ret (Some e)
  | None =>
  match CookieAuthKeyHexStr c with
  | None => panic
  | Some authHex =>
  let '(auth, err) := hex_DecodeString authHex in
  modify (set_cookieAuthKey auth);;
  match err with
  | Some e => ret (Some e)
  | None =>
  match CookieEncrKeyHexStr c with
  | None => panic
  | Some encrHex =>
  let '(encr, err) := hex_DecodeString encrHex in
  modify (set_cookieEncrKey encr);;
  match err with
  | Some e => ret (Some e)
  | None =>
  let err := securecookie_Encode auth encr in
  match err with
  | Some _ =>
      fmt_Printf
        "CookieAuthKeyHexStr and/or nCookieEncrKeyHexStr in config.json is not valid.\n"
        [];;
      fmt_Printf "You can use those random values:\n" [];;
      fmt_Printf "CookieAuthKeyHexStr: %s\nCookieEncrKeyHexStr: %s\n"
        [ArgNone; ArgNone]
  | None => ret tt
  end;;
  ret err
  end end end end end end.

(** The [for ... range config.Apps] loop of [main]. *)
Fixpoint main_range (apps : list AppConfig) : M unit :=
  match apps with
  | appData :: rest =>
      app ← NewApp appData;
      err ← addApp app;
      a ← deref app;
      match err with
      | Some e =>
          log_Fatalf "Failed to add the app: %s, err: %s\n"
            [ArgString (Name a); ArgError e]
      | None =>
          logger_Noticef "Added app %s\n" [ArgString (Name a)];;
          main_range rest
      end
  | [] => ret tt
  end.

(** [BackupConfig], declared in another file of the package. *)
Record BackupConfig := mkBackupConfig {
  bcAwsAccess : string;
  bcAwsSecret : string;
  bcBucket : string;
  bcS3Dir : string;
  bcLocalDir : string
}.

(** What [main] has started when it calls [srv.ListenAndServe]. *)
Record Serving := mkServing {
  backupLoop : option BackupConfig;   (* [go s3BackupLoop(backupConfig)] *)
  httpsAddr : option string;          (* [go srv.ListenAndServeTLS] *)
  httpListen : string                 (* [srv.ListenAndServe] *)
}.

(** [main], up to the call of [srv.ListenAndServe]. *)
Definition main : M Serving :=
  σ ← get;
  (if inProduction (flags σ) then modify (set_logTime false false)
   else ret tt);;
  err ← readConfig (configPath (flags σ));
  match err with
  | Some e =>
      log_Fatalf "Failed reading config file %s. %s\n"
        [ArgString (configPath (flags σ)); ArgError e]
  | None =>
  σ ← get;
  main_range (cfgApps (config σ));;
  σ ← get;
  if Z.of_nat (length (Apps (appState σ))) =? 0 then
    log_Fatalf "No apps defined in config.json" []
  else
  match AwsAccess (config σ), AwsSecret (config σ),
        S3BackupBucket (config σ), S3BackupDir (config σ) with
  | Some access, Some secret, Some bucket, Some dir =>
      localDir ← getDataDir;
      let backupConfig := mkBackupConfig access secret bucket dir localDir in
      enabled ← s3BackupEnabled;
      (if inProduction (flags σ) then
         logger_Noticef "Started runing HTTPS on %s\n" [ArgString ":443"]
       else ret tt);;
      d ← getDataDir;
      logger_Noticef "Started running on %s. Data dir: %s\n"
        [ArgString (httpAddr (flags σ)); ArgString d];;
      ret (mkServing (if enabled then Some backupConfig else None)
             (if inProduction (flags σ) then Some ":443"%string else None)
             (httpAddr (flags σ)))
  | _, _, _, _ => panic
  end
  end.

(** [strings.HasSuffix]:
    [len(s) >= len(suffix) && s[len(s)-len(suffix):] == suffix]. *)
Definition strings_HasSuffix (s suffix : string) : bool :=
  (len suffix <=? len s)
  && (String.substring (String.length s - String.length suffix)
        (String.length suffix) s =? suffix)%string.

(** [hostPolicy]; the context is not read. *)
Definition hostPolicy {Ctx : Type} (ctx : Ctx) (host : string) : option error :=
  if strings_HasSuffix host "apptranslator.org" then None
  else Some (errors_New
               "acme/autocert: only *.apptransloator.org hosts are allowed").

(** ** States *)

(** The package variables as their declarations initialise them, for a
    command line and a file system. [reloadTemplates] is declared in
    another file of the package. *)
Definition initState (fl : Flags) (reload : bool) (f : FS) : State :=
  mkState fl
    (mkConfig (Some (Build_Credentials "" "")) [] None None None None None None)
    "" "" "" (mkAppState [] []) true reload ∅ f [].

(** Every pointer kept in [appState.Apps] points to an [App]. *)
Definition registry_wf (σ : State) : Prop :=
  ∀ l, l ∈ Apps (appState σ) → is_Some (heap σ !! l).

(** The [App] objects of the registry, in order. *)
Definition registered (σ : State) : list App :=
  omap (λ l, heap σ !! l) (Apps (appState σ)).

(** ** Vocabulary of the properties *)

(** The [App] after [app.Name = strings.TrimSpace(app.Name)]. *)
Definition trimName (a : App) : App :=
  mkApp (mkAppConfig (strings_TrimSpace (Name a)) (Url a) (DataDir a)
           (AdminTwitterUser a) (AdminTwitterUser2 a) (UploadSecret a))
        (store a).

(** The field that [appInvalidField] reports for an [App] whose name is
    trimmed. *)
Definition invalidField (a : App) : string :=
  if (Name a =? "")%string then "Name"
  else if (DataDir a =? "")%string then "DataDir"
  else if (AdminTwitterUser a =? "")%string then "AdminTwitterUser"
  else if (UploadSecret a =? "")%string then "UploadSecret"
  else "".

(** [field] names a required field of [a] that is empty. *)
Definition missing (a : App) (field : string) : Prop :=
  (field = "Name" ∧ Name a = "")
  ∨ (field = "DataDir" ∧ DataDir a = "")
  ∨ (field = "AdminTwitterUser" ∧ AdminTwitterUser a = "")
  ∨ (field = "UploadSecret" ∧ UploadSecret a = "").

(** All required fields are present. *)
Definition valid (a : App) : Prop :=
  Name a ≠ "" ∧ DataDir a ≠ "" ∧ AdminTwitterUser a ≠ "" ∧ UploadSecret a ≠ "".

(** The path of [storeCsvFilePath] for the data directory [d]. *)
Definition csvPath (d : string) (a : App) : string :=
  filepath_Join [filepath_Join [d; DataDir a]; "translations.csv"].

(** The state after [appInvalidField(app)], for [*app = a]. *)
Definition trimmed (app : loc) (a : App) (σ : State) : State :=
  set_heap (<[app := trimName a]> (heap σ)) σ.

(** The registered names are what [strings.TrimSpace] returns for them. *)
Definition names_trimmed (σ : State) : Prop :=
  ∀ l (b : App), l ∈ Apps (appState σ) → heap σ !! l = Some b →
    strings_TrimSpace (Name b) = Name b.

(** The store of [a] was opened, without error, from a log file that
    exists at the path of [storeCsvFilePath]. *)
Definition loaded (a : App) : Prop :=
  ∃ d fs0 fs1,
    PathExists fs0 (csvPath d a) = true
    ∧ store_NewStoreCsv (csvPath d a) fs0 = (fs1, store a, None).

(** [main] before [readConfig]: the production switches. *)
Definition production_switches (σ : State) : State :=
  if inProduction (flags σ) then set_logTime false false σ else σ.

(** The registered [App] [a] is the configured app [c], ready to serve:
    its configuration is [c] with the name trimmed, all required fields
    are present and its store is loaded. *)
Definition initialized (c : AppConfig) (a : App) : Prop :=
  App_AppConfig a = App_AppConfig (trimName (mkApp c None))
  ∧ valid a ∧ loaded a.

(** The error of [readAppData]. *)
Definition missing_error (path : string) : error :=
  Errorf "readAppData: %q data file doesn't exist" [path].

(** The conditions under which [s3BackupEnabled] answers true. *)
Definition s3_conditions (σ : State) : Prop :=
  noS3Backup (flags σ) = false
  ∧ inProduction (flags σ) = true
  ∧ (∃ v, AwsAccess (config σ) = Some v ∧ v ≠ ""%string)
  ∧ (∃ v, AwsSecret (config σ) = Some v ∧ v ≠ ""%string)
  ∧ (∃ v, S3BackupBucket (config σ) = Some v ∧ v ≠ ""%string)
  ∧ (∃ v, S3BackupDir (config σ) = Some v ∧ v ≠ ""%string).

(** The names of the registered apps, in order. *)
Definition registered_names (σ : State) : list string :=
  (λ a : App, Name a) <$> registered σ.

(** The two directories that [getDataDir] looks for. *)
Definition serverDataDir : string := filepath_Join [".."; ".."; "data"].
Definition localDataDir : string := u_ExpandTildeInPath "~/data/apptranslator".

(** The message with which [getDataDir] stops the process. *)
Definition noDataDir : fatalMsg :=
  Fatalf "data directory (%v) doesn't exist\n"
    [ArgStrings [serverDataDir; localDataDir]].

End Program.

Arguments Ret {Ext A} a σ.
Arguments Exit {Ext A} m.
Arguments Panic {Ext A}.

(** * An instance of the other packages

    The program above runs once [Externals] is instantiated. The instance
    below is small enough to evaluate the program on concrete inputs. *)

Module store.

(** Modelled from the spec: the EditRecord of package [store] (the
    package is not part of [main.go]): a string-added, translation-set or
    string-deleted fact. *)
Inductive EditRecord :=
| StringAdded (id text : string)
| TranslationSet (id lang text : string)
| StringDeleted (id : string).

(** The fields of a line, separated by [sep]. *)
Fixpoint fields (sep : ascii) (s : string) : list string :=
  match s with
  | EmptyString => [EmptyString]
  | String c r =>
      if Ascii.eqb c sep then EmptyString :: fields sep r
      else match fields sep r with
           | f :: fs => String c f :: fs
           | [] => [String c EmptyString]
           end
  end.

(** The lines of a file; a final line feed ends the last line. *)
Definition lines (s : string) : list string :=
  match reverse (fields "010" s) with
  | EmptyString :: l => reverse l
  | l => reverse l
  end.

(** Modelled from the spec: the Log Codec's [decode] (4.1), which rejects
    a wrong field count and an unknown record kind. The spec fixes no
    syntax; here a line is the record kind and its fields, separated by
    tabs. *)
Definition decode (line : string) : option EditRecord :=
  match fields "009" line with
  | ["s"; id; text] => Some (StringAdded id text)
  | ["t"; id; lang; text] => Some (TranslationSet id lang text)
  | ["d"; id] => Some (StringDeleted id)
  | _ => None
  end.

(** Modelled from the spec: the Translation Index (3, 4.3): the active
    strings and the current translation of each (string, language). *)
Record Index := mkIndex {
  strings : list (string * string);
  translations : list (string * string * string)
}.

Definition is_active (id : string) (i : Index) : bool :=
  existsb (λ e, (e.1 =? id)%string) (strings i).

(** Modelled from the spec: applying one EditRecord to the index (4.3). *)
Definition apply (i : Index) (r : EditRecord) : Index :=
  match r with
  | StringAdded id text =>
      if is_active id i then i
      else mkIndex (strings i ++ [(id, text)]) (translations i)
  | TranslationSet id lang text =>
      if is_active id i then
        mkIndex (strings i)
          (List.filter (λ t, negb ((t.1.1 =? id) && (t.1.2 =? lang))%string)
             (translations i) ++ [(id, lang, text)])
      else i
  | StringDeleted id =>
      mkIndex (List.filter (λ e, negb (e.1 =? id)%string) (strings i))
        (List.filter (λ t, negb (t.1.1 =? id)%string) (translations i))
  end.

(** Modelled from the spec: [rebuild] (4.3), the index as the replay of
    all records from the empty index. *)
Definition rebuild (rs : list EditRecord) : Index :=
  foldl apply (mkIndex [] []) rs.

(** Modelled from the spec: the language count of an index, recomputed
    from its translations (3, "Aggregate counters"). *)
Definition languagesCount (i : Index) : Z :=
  Z.of_nat (length (remove_dups ((λ t, t.1.2) <$> translations i))).

Definition stringsCount (i : Index) : Z := Z.of_nat (length (strings i)).

Definition untranslatedCount (i : Index) : Z :=
  Z.of_nat (length (List.filter
                      (λ e, negb (existsb (λ t, (t.1.1 =? e.1)%string)
                                    (translations i)))
                      (strings i))).

Record StoreCsv := mkStoreCsv {
  filePath : string;
  edits : list EditRecord;
  index : Index
}.

(** Modelled from the spec: opening a store (4.2 [replayAll], 4.4
    [load]): every line of the log is decoded, the load is aborted at a
    line that does not decode, and the index is rebuilt from the records.
    No file is created. *)
Definition NewStoreCsv (path : string) (fs : FS)
  : FS * option StoreCsv * option error :=
  match fs path with
  | Some (File b) =>
      match mapM decode (lines b) with
      | Some rs => (fs, Some (mkStoreCsv path rs (rebuild rs)), None)
      | None => (fs, None, Some (Errorf "corrupt record in %s" [path]))
      end
  | _ => (fs, None, Some (Errorf "open %s" [path]))
  end.

End store.

Module sample.

(** [strings.TrimSpace] for ASCII strings: leading and trailing
    tabs, line feeds, vertical tabs, form feeds, carriage returns and
    spaces are removed. *)
Definition asciiSpace (c : ascii) : bool :=
  let n := nat_of_ascii c in
  ((9 <=? n)%nat && (n <=? 13)%nat) || (n =? 32)%nat.

Fixpoint trimLeft (s : string) : string :=
  match s with
  | String c r => if asciiSpace c then trimLeft r else s
  | EmptyString => EmptyString
  end.

Fixpoint trimRight (s : string) : string :=
  match s with
  | String c r =>
      match trimRight r with
      | EmptyString => if asciiSpace c then EmptyString else String c EmptyString
      | r' => String c r'
      end
  | EmptyString => EmptyString
  end.

Definition TrimSpace (s : string) : string := trimRight (trimLeft s).

(** [filepath.Join] for elements that need no cleaning: the non-empty
    elements, separated by a slash. *)
Fixpoint Join (elem : list string) : string :=
  match elem with
  | [] => EmptyString
  | e :: rest =>
      if (e =? "")%string then Join rest
      else match Join rest with
           | EmptyString => e
           | r => e +:+ "/" +:+ r
           end
  end.

(** [u.ExpandTildeInPath] for a user whose home directory is [home]. *)
Definition ExpandTildeInPath (home : string) (s : string) : string :=
  match s with
  | String "~" r => home +:+ r
  | _ => s
  end.

(** [hex.DecodeString] *)
Definition fromHexChar (c : ascii) : option nat :=
  let n := nat_of_ascii c in
  if ((48 <=? n) && (n <=? 57))%nat then Some (n - 48)%nat
  else if ((97 <=? n) && (n <=? 102))%nat then Some (n - 97 + 10)%nat
  else if ((65 <=? n) && (n <=? 70))%nat then Some (n - 65 + 10)%nat
  else None.

Fixpoint DecodeString (s : string) : string * option error :=
  match s with
  | EmptyString => (EmptyString, None)
  | String a (String b r) =>
      match fromHexChar a, fromHexChar b with
      | Some x, Some y =>
          let '(d, err) := DecodeString r in
          (String (ascii_of_nat (16 * x + y)) d, err)
      | _, _ => (EmptyString, Some (Errorf "encoding/hex: invalid byte" []))
      end
  | String _ EmptyString =>
      (EmptyString, Some (Errorf "encoding/hex: odd length hex string" []))
  end.

(** [securecookie]: encoding fails when the hash key is not set. *)
Definition Encode (auth encr : string) : option error :=
  if (auth =? "")%string then Some (Errorf "securecookie: hash key is not set" [])
  else None.

(** The instance. [json.Unmarshal] is given by [documents], the
    configuration that each well-formed configuration file stands for;
    [langs] is the table [store.Languages]. *)
Definition externals (home : string) (documents : string → option Config)
    (langs : list (string * string)) : Externals := {|
  strings_TrimSpace := TrimSpace;
  filepath_Join := Join;
  u_ExpandTildeInPath := ExpandTildeInPath home;
  json_Unmarshal b c :=
    match documents b with
    | Some c' => (c', None)
    | None => (c, Some (Errorf "json: cannot unmarshal" []))
    end;
  hex_DecodeString := DecodeString;
  securecookie_Encode := Encode;
  StoreCsv := store.StoreCsv;
  Lang := string * string;
  store_Languages := langs;
  store_NewStoreCsv := store.NewStoreCsv;
  StoreCsv_LangsCount s := store.languagesCount (store.index s);
  StoreCsv_StringsCount s := store.stringsCount (store.index s);
  StoreCsv_UntranslatedCount s := store.untranslatedCount (store.index s);
  StoreCsv_EditsCount s := Z.of_nat (length (store.edits s))
|}.

End sample.

(** * Inputs

    A command line, configuration documents and a file system on which
    the program is run in the examples that follow the properties. *)

Module inputs.

Definition languages : list (string * string) :=
  [("de", "German"); ("fr", "French"); ("pl", "Polish")].

Definition tab : string := String "009" EmptyString.
Definition lf : string := String "010" EmptyString.

(** A log with one string and its French translation. *)
Definition log : string :=
  "s" +:+ tab +:+ "h1" +:+ tab +:+ "Hello" +:+ lf
  +:+ "t" +:+ tab +:+ "h1" +:+ tab +:+ "fr" +:+ tab +:+ "Bonjour" +:+ lf.

Definition demo : AppConfig :=
  mkAppConfig " demo " "http://demo.example" "demo" "alice" "" "s3cret".
Definition tool : AppConfig :=
  mkAppConfig "tool" "" "tool" "bob" "" "t00l".
Definition nosecret : AppConfig :=
  mkAppConfig "tool" "" "tool" "bob" "" "".
Definition broken : AppConfig :=
  mkAppConfig "broken" "" "broken" "carol" "" "x".

Definition config_of (apps : list AppConfig) : Config :=
  mkConfig None apps (Some "00ff") (Some "00ff")
    (Some "key") (Some "secret") (Some "bucket") (Some "dir").

(** The configuration documents that [json.Unmarshal] accepts. *)
Definition documents (b : string) : option Config :=
  if (b =? "demo")%string then Some (config_of [demo])
  else if (b =? "demo twice")%string then Some (config_of [demo; demo])
  else if (b =? "no apps")%string then Some (config_of [])
  else None.

(** A file system whose [config.json] holds [conf]: the log of [demo],
    an empty log for [tool] and a file that is not a log for [broken]. *)
Definition files (conf : string) : FS := λ p,
  if (p =? "config.json")%string then Some (File conf)
  else if (p =? "../../data")%string then Some Dir
  else if (p =? "../../data/demo/translations.csv")%string then Some (File log)
  else if (p =? "../../data/tool/translations.csv")%string then Some (File "")
  else if (p =? "../../data/broken/translations.csv")%string
       then Some (File "not a record")
  else None.

Definition E : Externals := sample.externals "/home/u" documents languages.

Definition flags0 : Flags := mkFlags "config.json" ":5001" false false.

(** The initial state of the process. *)
Definition start (conf : string) : @State E :=
  initState flags0 true (files conf).

(** The state in which [m] returns, from [σ]. *)
Definition after {A} (m : @M E A) (σ : @State E) : @State E :=
  match m σ with
  | Ret _ σ' => σ'
  | _ => σ
  end.

(** The store of [demo], and [demo] as it is registered. *)
Definition store1 : store.StoreCsv :=
  store.mkStoreCsv "../../data/demo/translations.csv"
    [store.StringAdded "h1" "Hello"; store.TranslationSet "h1" "fr" "Bonjour"]
    (store.mkIndex [("h1", "Hello")] [("h1", "fr", "Bonjour")]).

Definition demo_app : @App E :=
  mkApp (mkAppConfig "demo" "http://demo.example" "demo" "alice" "" "s3cret")
    (Some (store1 : @StoreCsv E)).

(** The state in which [main] serves the configuration [demo]. *)
Definition served : @State E := after main (start "demo").

(** [served], with a new [App] for the configuration [c]. *)
Definition served_with (c : AppConfig) : @State E := after (NewApp c) served.

(** The initial state, with a new [App] for the configuration [c]. *)
Definition start_with (c : AppConfig) : @State E :=
  after (NewApp c) (start "demo").

End inputs.

(** * Properties *)

Section Properties.
Context `{Ext : Externals}.

(** ** Pointers *)

Lemma deref_Some σ p a : heap σ !! p = Some a → deref p σ = Ret a σ.
Proof. intros H. unfold deref. by rewrite H. Qed.

Lemma deref_None σ p : heap σ !! p = None → deref p σ = Panic.
Proof. intros H. unfold deref. by rewrite H. Qed.

Lemma deref_Ret σ p a σ' :
  deref p σ = Ret a σ' → heap σ !! p = Some a ∧ σ' = σ.
Proof.
  unfold deref. destruct (heap σ !! p) eqn:E; [|done].
  intros [= -> ->]. done.
Qed.

Lemma assign_Some σ p a b :
  heap σ !! p = Some a →
  assign p b σ = Ret tt (set_heap (<[p := b]> (heap σ)) σ).
Proof. intros H. unfold assign, bind. by rewrite (deref_Some _ _ _ H). Qed.

(** ** [stringEmpty] *)

Lemma len_0 s : (0 =? len s) = true ↔ s = ""%string.
Proof.
  unfold len. destruct s as [|c s]; simpl; [done|].
  split; done.
Qed.

Lemma stringEmpty_false s :
  stringEmpty s = false ↔ ∃ v, s = Some v ∧ v ≠ ""%string.
Proof.
  destruct s as [v|]; simpl.
  - split.
    + intros H. exists v. split; [done|]. intros ->. done.
    + intros (w & [= <-] & Hw). destruct (0 =? len v) eqn:E; [|done].
      apply len_0 in E. done.
  - split; [done|]. by intros (v & ? & _).
Qed.

Lemma eqb_empty_false s : (s =? "")%string = false ↔ s ≠ ""%string.
Proof. apply String.eqb_neq. Qed.

(** ** [findApp] *)

Lemma findApp_range_spec σ apps name :
  (∀ l, l ∈ apps → is_Some (heap σ !! l)) →
  ∃ r, findApp_range apps name σ = Ret r σ
       ∧ match r with
         | Some l => l ∈ apps ∧ ∃ a : App, heap σ !! l = Some a ∧ Name a = name
         | None => ∀ l (a : App), l ∈ apps → heap σ !! l = Some a → Name a ≠ name
         end.
Proof.
  induction apps as [|app rest IH]; intros Hwf.
  - exists None. split; [done|]. intros l a Hl. by apply elem_of_nil in Hl.
  - destruct (Hwf app) as [a Ha]; [left|].
    simpl. unfold bind at 1. rewrite (deref_Some _ _ _ Ha).
    destruct (Name a =? name)%string eqn:E.
    + exists (Some app). split; [done|]. apply String.eqb_eq in E.
      split; [left | eauto].
    + apply String.eqb_neq in E.
      destruct IH as (r & Hr & Hspec); [intros l Hl; apply Hwf; by right|].
      exists r. split; [done|]. destruct r as [l|].
      * destruct Hspec as [Hl Hex]. split; [by right | done].
      * intros l b Hl Hb. apply elem_of_cons in Hl as [->|Hl]; [congruence|].
        by eapply Hspec.
Qed.

(** C7. In a registry whose pointers are valid, [findApp(name)] returns
    a registered app whose [Name] equals [name] whenever the registry has
    one, and [nil] when no registered app has that name; it changes
    nothing. *)
Theorem findApp_resolves (σ : State) (name : string) :
  registry_wf σ →
  ((∃ l (a : App), l ∈ Apps (appState σ) ∧ heap σ !! l = Some a ∧ Name a = name) →
   ∃ l (a : App), findApp name σ = Ret (Some l) σ
          ∧ l ∈ Apps (appState σ) ∧ heap σ !! l = Some a ∧ Name a = name)
  ∧ ((∀ l (a : App), l ∈ Apps (appState σ) → heap σ !! l = Some a → Name a ≠ name) →
     findApp name σ = Ret None σ).
Proof.
  intros Hwf.
  destruct (findApp_range_spec σ (Apps (appState σ)) name Hwf)
    as (r & Hr & Hspec).
  unfold findApp, bind, get. rewrite Hr. split.
  - intros (l & a & Hl & Ha & Hn). destruct r as [l'|].
    + destruct Hspec as (Hl' & a' & Ha' & Hn'). by exists l', a'.
    + by destruct (Hspec l a Hl Ha).
  - intros Hnone. destruct r as [l'|]; [|done].
    destruct Hspec as (Hl' & a' & Ha' & Hn'). by destruct (Hnone l' a' Hl' Ha').
Qed.

Lemma invalidField_valid a : invalidField a = "" ↔ valid a.
Proof.
  unfold invalidField, valid.
  destruct (Name a =? "")%string eqn:E1;
    [apply String.eqb_eq in E1; split; [done | tauto]|].
  destruct (DataDir a =? "")%string eqn:E2;
    [apply String.eqb_eq in E2; split; [done | tauto]|].
  destruct (AdminTwitterUser a =? "")%string eqn:E3;
    [apply String.eqb_eq in E3; split; [done | tauto]|].
  destruct (UploadSecret a =? "")%string eqn:E4;
    [apply String.eqb_eq in E4; split; [done | tauto]|].
  apply String.eqb_neq in E1, E2, E3, E4. done.
Qed.

Lemma invalidField_missing a : ¬ valid a → missing a (invalidField a).
Proof.
  unfold invalidField, valid, missing. intros Hv.
  destruct (Name a =? "")%string eqn:E1;
    [apply String.eqb_eq in E1; tauto|].
  destruct (DataDir a =? "")%string eqn:E2;
    [apply String.eqb_eq in E2; tauto|].
  destruct (AdminTwitterUser a =? "")%string eqn:E3;
    [apply String.eqb_eq in E3; tauto|].
  destruct (UploadSecret a =? "")%string eqn:E4;
    [apply String.eqb_eq in E4; tauto|].
  apply String.eqb_neq in E1, E2, E3, E4. tauto.
Qed.

Lemma appInvalidField_eq σ app a :
  heap σ !! app = Some a →
  appInvalidField app σ
  = Ret (invalidField (trimName a))
      (set_heap (<[app := trimName a]> (heap σ)) σ).
Proof.
  intros Ha. unfold appInvalidField. unfold bind at 1.
  rewrite (deref_Some _ _ _ Ha). unfold bind at 1.
  rewrite (assign_Some _ _ _ _ Ha). unfold bind at 1.
  erewrite deref_Some; [|simpl; apply lookup_insert_eq].
  unfold invalidField, ret. fold (trimName a).
  repeat (match goal with |- context [if ?c then _ else _] => destruct c end);
    done.
Qed.

(** ** [getDataDir] *)

Lemma set_dataDir_id σ : set_dataDir (dataDir σ) σ = σ.
Proof. by destruct σ. Qed.

Lemma getDataDir_range_Ret dirs dirsToCheck σ d σ' :
  getDataDir_range dirs dirsToCheck σ = Ret d σ' →
  σ' = set_dataDir d σ ∧ d ∈ dirs ∧ PathExists (fs σ) d = true.
Proof.
  induction dirs as [|dir rest IH]; simpl; [done|].
  unfold bind, get. destruct (PathExists (fs σ) dir) eqn:E.
  - unfold modify, ret. simpl. intros [= <- <-]. split; [done|]. split; [left | done].
  - intros H. destruct (IH H) as (? & ? & ?). split; [done|]. split; [by right | done].
Qed.

Lemma getDataDir_Ret σ d σ' :
  getDataDir σ = Ret d σ' → σ' = set_dataDir d σ.
Proof.
  unfold getDataDir, bind, get.
  destruct (dataDir σ =? "")%string; cbn [negb].
  - intros H. by apply getDataDir_range_Ret in H as [? _].
  - unfold ret. intros [= <- <-]. by rewrite set_dataDir_id.
Qed.

(** A data directory that is already known is returned as it is. *)
Lemma getDataDir_known σ :
  dataDir σ ≠ ""%string → getDataDir σ = Ret (dataDir σ) σ.
Proof.
  intros H. apply String.eqb_neq in H.
  unfold getDataDir, bind, get. by rewrite H.
Qed.

(** ** [readAppData] *)

Lemma storeCsvFilePath_eq σ app a :
  heap σ !! app = Some a →
  storeCsvFilePath app σ
  = match getDataDir σ with
    | Ret d σ1 => Ret (csvPath d a) σ1
    | Exit m => Exit m
    | Panic => Panic
    end.
Proof.
  intros Ha. unfold storeCsvFilePath. unfold bind at 1.
  destruct (getDataDir σ) as [d σ1| |] eqn:E; [|done..].
  apply getDataDir_Ret in E as ->.
  unfold bind. erewrite deref_Some; [|exact Ha]. done.
Qed.

Lemma readAppData_eq σ app a :
  heap σ !! app = Some a →
  readAppData app σ
  = match getDataDir σ with
    | Ret d σ1 =>
        let path := csvPath d a in
        if PathExists (fs σ) path then
          match store_NewStoreCsv path (fs σ) with
          | (fs', l, None) =>
              Ret None (set_heap (<[app := mkApp a l]> (heap σ)) (set_fs fs' σ1))
          | (fs', l, Some _) => Ret (Some (missing_error path)) (set_fs fs' σ1)
          end
        else Ret (Some (missing_error path)) σ1
    | Exit m => Exit m
    | Panic => Panic
    end.
Proof.
  intros Ha. unfold readAppData. unfold bind at 1.
  rewrite (storeCsvFilePath_eq _ _ _ Ha).
  destruct (getDataDir σ) as [d σ1| |] eqn:E; [|done..].
  apply getDataDir_Ret in E as ->. unfold bind at 1, get. simpl.
  destruct (PathExists (fs σ) (csvPath d a)); [|done].
  destruct (store_NewStoreCsv (csvPath d a) (fs σ)) as [[fs' l] [e|]]; [done|].
  unfold bind at 1, modify. unfold bind at 1.
  erewrite deref_Some; [|exact Ha]. unfold bind.
  erewrite assign_Some; [|exact Ha]. done.
Qed.

Lemma readAppData_nil σ app : heap σ !! app = None → 
  ∀ r σ', readAppData app σ ≠ Ret r σ'.
Proof.
  intros Ha r σ'. unfold readAppData, storeCsvFilePath. unfold bind at 1 2.
  destruct (getDataDir σ) as [d σ1| |] eqn:E; [|done..].
  apply getDataDir_Ret in E as ->. unfold bind at 1.
  rewrite deref_None; done.
Qed.

(** What [readAppData] leaves as it is. *)
Lemma readAppData_frame σ app r σ' :
  readAppData app σ = Ret r σ' →
  appState σ' = appState σ ∧ config σ' = config σ ∧ flags σ' = flags σ
  ∧ (∀ l, l ≠ app → heap σ' !! l = heap σ !! l)
  ∧ (∀ l, is_Some (heap σ !! l) → is_Some (heap σ' !! l)).
Proof.
  destruct (heap σ !! app) as [a|] eqn:Ha;
    [|intros H; by apply readAppData_nil in H].
  rewrite (readAppData_eq _ _ _ Ha).
  destruct (getDataDir σ) as [d σ1| |] eqn:E; [|done..].
  apply getDataDir_Ret in E as ->. simpl.
  destruct (PathExists (fs σ) (csvPath d a)).
  - destruct (store_NewStoreCsv (csvPath d a) (fs σ)) as [[fs' l] [e|]];
      intros [= <- <-]; simpl; repeat split; try done.
    + intros l' Hl'. by rewrite lookup_insert_ne.
    + intros l' Hl'. destruct (decide (app = l')) as [->|Hne];
        [rewrite lookup_insert_eq; eauto | by rewrite lookup_insert_ne].
  - intros [= <- <-]. done.
Qed.

(** ** [addApp] *)

Lemma findApp_range_Ret apps name σ r σ' :
  findApp_range apps name σ = Ret r σ' → σ' = σ.
Proof.
  induction apps as [|app rest IH]; simpl.
  - by intros [= _ <-].
  - unfold bind at 1. destruct (deref app σ) as [a σ1| |] eqn:E; [|done..].
    apply deref_Ret in E as [_ ->].
    destruct (Name a =? name)%string; [by intros [= _ <-] | done].
Qed.

Lemma findApp_Ret name σ r σ' : findApp name σ = Ret r σ' → σ' = σ.
Proof. unfold findApp, bind, get. apply findApp_range_Ret. Qed.

Lemma addApp_eq σ app a :
  heap σ !! app = Some a →
  addApp app σ
  = let σ1 := trimmed app a σ in
    if negb (invalidField (trimName a) =? "")%string then
      Ret (Some (Errorf "App has invalid field %q" [invalidField (trimName a)])) σ1
    else
      match findApp (Name (trimName a)) σ1 with
      | Ret (Some _) _ => Ret (Some (errors_New "App already exists")) σ1
      | Ret None _ =>
          match readAppData app σ1 with
          | Ret (Some e) σ2 => Ret (Some e) σ2
          | Ret None σ2 => Ret None (set_Apps (Apps (appState σ2) ++ [app]) σ2)
          | Exit m => Exit m
          | Panic => Panic
          end
      | Exit m => Exit m
      | Panic => Panic
      end.
Proof.
  intros Ha. unfold addApp. unfold bind at 1.
  rewrite (appInvalidField_eq _ _ _ Ha). fold (trimmed app a σ). cbn zeta.
  destruct (negb (invalidField (trimName a) =? "")%string); [done|].
  unfold bind at 1. erewrite deref_Some; [|apply lookup_insert_eq].
  unfold bind at 1. unfold appAlreadyExists. unfold bind at 1.
  destruct (findApp (Name (trimName a)) (trimmed app a σ)) as [r σ2| |] eqn:E;
    [|done..].
  apply findApp_Ret in E as ->. unfold ret at 1.
  destruct r as [l|]; [done|].
  unfold bind at 1.
  destruct (readAppData app (trimmed app a σ)) as [[e|] σ2| |]; done.
Qed.

Lemma addApp_nil σ app :
  heap σ !! app = None → addApp app σ = Panic.
Proof.
  intros Ha. unfold addApp, appInvalidField. unfold bind at 1 2.
  by rewrite (deref_None _ _ Ha).
Qed.

Lemma trimmed_wf σ app a :
  registry_wf σ → registry_wf (trimmed app a σ).
Proof.
  intros Hwf l Hl. simpl. destruct (decide (app = l)) as [->|Hne].
  - rewrite lookup_insert_eq. eauto.
  - rewrite lookup_insert_ne; [|done]. by apply Hwf.
Qed.

Lemma not_valid_trimName (a : App) :
  ¬ valid (trimName a) ↔
  strings_TrimSpace (Name a) = ""%string ∨ DataDir a = ""%string
  ∨ AdminTwitterUser a = ""%string ∨ UploadSecret a = ""%string.
Proof.
  unfold valid. simpl.
  destruct (decide (strings_TrimSpace (Name a) = ""%string)); [tauto|].
  destruct (decide (DataDir a = ""%string)); [tauto|].
  destruct (decide (AdminTwitterUser a = ""%string)); [tauto|].
  destruct (decide (UploadSecret a = ""%string)); tauto.
Qed.

(** C3. [addApp] validates the name, [DataDir], [AdminTwitterUser] and
    [UploadSecret]: for every app with one of these empty (the name after
    trimming white space), it returns the error
    [App has invalid field %q] whose operand names a required field that
    is empty. The only effect is that the app's name is trimmed. *)
Theorem addApp_invalid_field (σ : State) (app : loc) (a : App) :
  heap σ !! app = Some a →
  strings_TrimSpace (Name a) = ""%string ∨ DataDir a = ""%string
  ∨ AdminTwitterUser a = ""%string ∨ UploadSecret a = ""%string →
  ∃ field,
    addApp app σ
    = Ret (Some (Errorf "App has invalid field %q" [field])) (trimmed app a σ)
    ∧ missing (trimName a) field.
Proof.
  intros Ha Hm. apply not_valid_trimName in Hm.
  exists (invalidField (trimName a)). split; [|by apply invalidField_missing].
  rewrite (addApp_eq _ _ _ Ha). cbn zeta.
  destruct (invalidField (trimName a) =? "")%string eqn:E; [|done].
  apply String.eqb_eq, invalidField_valid in E. done.
Qed.

(** An app with all required fields is not reported as invalid. *)
Lemma addApp_valid_field σ app a field σ' :
  heap σ !! app = Some a → valid (trimName a) →
  addApp app σ ≠ Ret (Some (Errorf "App has invalid field %q" [field])) σ'.
Proof.
  intros Ha Hv. rewrite (addApp_eq _ _ _ Ha). cbn zeta.
  apply invalidField_valid in Hv. rewrite Hv. cbn [String.eqb negb].
  destruct (findApp _ _) as [[l|] σ2| |]; [done| |done..].
  pose proof (readAppData_eq (trimmed app a σ) app (trimName a)) as Hr.
  rewrite Hr; [|apply lookup_insert_eq].
  destruct (getDataDir _) as [d σ1| |]; [|done..]. cbn zeta.
  destruct (PathExists _ _); [|done].
  destruct (store_NewStoreCsv _ _) as [[fs' l] [e|]]; done.
Qed.

(** C4. In a registry whose pointers are valid, for every app with all
    required fields whose name (as [addApp] compares it, that is trimmed;
    or as it is given, when the registered names are trimmed) equals the
    name of a registered app, [addApp] returns the error
    [App already exists]; and [addApp] returns [nil] only when no
    registered app has that name. *)
Theorem addApp_already_exists (σ : State) (app : loc) (a : App) :
  registry_wf σ →
  heap σ !! app = Some a →
  valid (trimName a) →
  ((∃ l (b : App), l ∈ Apps (appState σ) ∧ heap σ !! l = Some b
       ∧ (Name b = strings_TrimSpace (Name a)
          ∨ (names_trimmed σ ∧ Name b = Name a))) →
   addApp app σ
   = Ret (Some (errors_New "App already exists")) (trimmed app a σ))
  ∧ (∀ σ', addApp app σ = Ret None σ' →
     ∀ l (b : App), l ∈ Apps (appState σ) → heap σ !! l = Some b →
       Name b ≠ strings_TrimSpace (Name a)
       ∧ (names_trimmed σ → Name b ≠ Name a)).
Proof.
  intros Hwf Ha Hv.
  assert (Hraw : ∀ l (b : App), l ∈ Apps (appState σ) → heap σ !! l = Some b →
            names_trimmed σ → Name b = Name a →
            Name b = strings_TrimSpace (Name a)).
  { intros l b Hl Hb Ht Hn. rewrite <- Hn. symmetry. by eapply Ht. }
  rewrite (addApp_eq _ _ _ Ha). cbn zeta.
  apply invalidField_valid in Hv. rewrite Hv. cbn [String.eqb negb].
  pose proof (trimmed_wf σ app a Hwf) as Hwf1.
  destruct (findApp_range_spec (trimmed app a σ) (Apps (appState σ))
              (strings_TrimSpace (Name a)) Hwf1) as (r & Hr & Hspec).
  change (Name (trimName a)) with (strings_TrimSpace (Name a)).
  unfold findApp, bind, get. simpl in Hr |- *. rewrite Hr.
  split.
  - intros (l & b & Hl & Hb & Hn).
    assert (Name b = strings_TrimSpace (Name a)) as Hn'.
    { destruct Hn as [Hn|[Ht Hn]]; [done | by eapply Hraw]. }
    destruct r as [l'|]; [done|]. exfalso.
    destruct (decide (app = l)) as [->|Hne].
    + eapply (Hspec l (trimName a)); [done| |done].
      simpl. apply lookup_insert_eq.
    + eapply (Hspec l b); [done| |done]. simpl. by rewrite lookup_insert_ne.
  - intros σ' Hadd l b Hl Hb.
    destruct r as [l'|]; [done|].
    assert (Name b ≠ strings_TrimSpace (Name a)) as Hne.
    { destruct (decide (app = l)) as [->|Hne].
      - exfalso. eapply (Hspec l (trimName a)); [done| |done].
        simpl. apply lookup_insert_eq.
      - eapply (Hspec l b); [done|]. simpl. by rewrite lookup_insert_ne. }
    split; [done|]. intros Ht Hn. apply Hne. by eapply Hraw.
Qed.

(** The registry after [addApp]. *)
Lemma addApp_appState σ σ' app r :
  addApp app σ = Ret r σ' →
  match r with
  | Some _ => appState σ' = appState σ
  | None => Apps (appState σ') = (Apps (appState σ) ++ [app])%list
  end.
Proof.
  destruct (heap σ !! app) as [a|] eqn:Ha; [|by rewrite addApp_nil].
  rewrite (addApp_eq _ _ _ Ha). cbn zeta.
  destruct (negb _); [by intros [= <- <-]|].
  destruct (findApp _ _) as [[l|] σ2| |]; [by intros [= <- <-]| |done..].
  destruct (readAppData app (trimmed app a σ)) as [[e|] σ2'| |] eqn:E; [| |done..].
  - intros [= <- <-]. by apply readAppData_frame in E as (-> & _).
  - intros [= <- <-]. apply readAppData_frame in E as (-> & _). done.
Qed.

(** C8. [addApp] is atomic with respect to the registry: whenever it
    returns an error (invalid field, duplicate name or data file) the
    [AppState], and so the list [appState.Apps], is unchanged; on success
    the app is appended to [appState.Apps]. *)
Theorem addApp_atomic (σ σ' : State) (app : loc) (r : option error) :
  addApp app σ = Ret r σ' →
  match r with
  | Some _ => appState σ' = appState σ
  | None => Apps (appState σ') = (Apps (appState σ) ++ [app])%list
  end.
Proof. apply addApp_appState. Qed.

(** *** What [readAppData] returns *)

Lemma readAppData_missing_file σ app (a : App) d σ1 :
  heap σ !! app = Some a →
  getDataDir σ = Ret d σ1 →
  PathExists (fs σ) (csvPath d a) = false →
  readAppData app σ = Ret (Some (missing_error (csvPath d a))) σ1
  ∧ fs σ1 = fs σ ∧ heap σ1 = heap σ.
Proof.
  intros Ha Hd Hp. rewrite (readAppData_eq _ _ _ Ha), Hd. cbn zeta.
  rewrite Hp. apply getDataDir_Ret in Hd as ->. done.
Qed.

Lemma readAppData_opens σ app (a : App) d σ1 fs' l :
  heap σ !! app = Some a →
  getDataDir σ = Ret d σ1 →
  PathExists (fs σ) (csvPath d a) = true →
  store_NewStoreCsv (csvPath d a) (fs σ) = (fs', l, None) →
  ∃ σ', readAppData app σ = Ret None σ'
        ∧ heap σ' !! app = Some (mkApp a l).
Proof.
  intros Ha Hd Hp Hn. rewrite (readAppData_eq _ _ _ Ha), Hd. cbn zeta.
  rewrite Hp, Hn. eexists. split; [done|]. simpl. apply lookup_insert_eq.
Qed.

Lemma readAppData_open_fails σ app (a : App) d σ1 fs' l e :
  heap σ !! app = Some a →
  getDataDir σ = Ret d σ1 →
  PathExists (fs σ) (csvPath d a) = true →
  store_NewStoreCsv (csvPath d a) (fs σ) = (fs', l, Some e) →
  readAppData app σ
  = Ret (Some (missing_error (csvPath d a))) (set_fs fs' σ1).
Proof.
  intros Ha Hd Hp Hn. rewrite (readAppData_eq _ _ _ Ha), Hd. cbn zeta.
  by rewrite Hp, Hn.
Qed.

Lemma readAppData_nil_loaded σ app (a : App) σ' :
  heap σ !! app = Some a →
  readAppData app σ = Ret None σ' →
  ∃ l, heap σ' !! app = Some (mkApp a l) ∧ loaded (mkApp a l).
Proof.
  intros Ha. rewrite (readAppData_eq _ _ _ Ha).
  destruct (getDataDir σ) as [d σ1| |] eqn:E; [|done..]. cbn zeta.
  destruct (PathExists (fs σ) (csvPath d a)) eqn:Hp; [|done].
  destruct (store_NewStoreCsv (csvPath d a) (fs σ)) as [[fs' l] [e|]] eqn:Hn;
    [done|].
  intros [= <-]. exists l. split; [simpl; apply lookup_insert_eq|].
  by exists d, (fs σ), fs'.
Qed.

(** *** What [addApp] leaves as it is *)

Lemma addApp_frame σ app r σ' :
  addApp app σ = Ret r σ' →
  config σ' = config σ ∧ flags σ' = flags σ
  ∧ Users (appState σ') = Users (appState σ)
  ∧ (∀ l, l ≠ app → heap σ' !! l = heap σ !! l)
  ∧ (∀ l, is_Some (heap σ !! l) → is_Some (heap σ' !! l)).
Proof.
  destruct (heap σ !! app) as [a|] eqn:Ha; [|by rewrite addApp_nil].
  rewrite (addApp_eq _ _ _ Ha). cbn zeta.
  assert (Hne : ∀ l, l ≠ app → heap (trimmed app a σ) !! l = heap σ !! l).
  { intros l Hl. simpl. by rewrite lookup_insert_ne. }
  assert (Hsome : ∀ l, is_Some (heap σ !! l) →
                       is_Some (heap (trimmed app a σ) !! l)).
  { intros l Hl. destruct (decide (l = app)) as [->|Hl'];
      [simpl; rewrite lookup_insert_eq; eauto | by rewrite Hne]. }
  destruct (negb _); [by intros [= <- <-]|].
  destruct (findApp _ _) as [[l|] σ2| |]; [by intros [= <- <-]| |done..].
  destruct (readAppData app (trimmed app a σ)) as [[e|] σ2'| |] eqn:E;
    [| |done..];
    apply readAppData_frame in E as (HA & HC & HF & HH & HS);
    intros [= <- <-]; simpl; rewrite ?HA, ?HC, ?HF; repeat split; try done.
  - intros l Hl. by rewrite HH, Hne.
  - intros l Hl. by apply HS, Hsome.
  - intros l Hl. by rewrite HH, Hne.
  - intros l Hl. by apply HS, Hsome.
Qed.

(** An app that [addApp] accepts has all required fields, a trimmed
    name and a loaded store. *)
Lemma addApp_nil_initialized σ app σ' :
  addApp app σ = Ret None σ' →
  ∃ a a' : App, heap σ !! app = Some a ∧ heap σ' !! app = Some a'
    ∧ App_AppConfig a' = App_AppConfig (trimName a)
    ∧ valid a' ∧ loaded a'.
Proof.
  destruct (heap σ !! app) as [a|] eqn:Ha; [|by rewrite addApp_nil].
  rewrite (addApp_eq _ _ _ Ha). cbn zeta.
  destruct (invalidField (trimName a) =? "")%string eqn:Hv; [|done].
  apply String.eqb_eq, invalidField_valid in Hv. cbn [negb].
  destruct (findApp _ _) as [[l|] σ2| |]; [done| |done..].
  destruct (readAppData app (trimmed app a σ)) as [[e|] σ2'| |] eqn:E;
    [done| |done..].
  intros [= <-].
  apply readAppData_nil_loaded with (a := trimName a) in E
    as (l & Hl & Hloaded); [|simpl; apply lookup_insert_eq].
  exists a, (mkApp (trimName a) l). done.
Qed.

(** The registry keeps valid pointers. *)
Lemma addApp_wf σ app r σ' :
  registry_wf σ → addApp app σ = Ret r σ' → registry_wf σ'.
Proof.
  intros Hwf Hadd. pose proof (addApp_appState _ _ _ _ Hadd) as Hat.
  pose proof (addApp_frame _ _ _ _ Hadd) as (_ & _ & _ & _ & Hsome).
  intros l Hl. destruct r as [e|].
  - rewrite Hat in Hl. by apply Hsome, Hwf.
  - rewrite Hat in Hl. apply elem_of_app in Hl as [Hl|Hl].
    + by apply Hsome, Hwf.
    + apply list_elem_of_singleton in Hl as ->.
      apply addApp_nil_initialized in Hadd as (a & a' & _ & Ha' & _). eauto.
Qed.

(** The registered names stay trimmed, when trimming twice is trimming
    once. *)
Lemma addApp_names_trimmed σ app r σ' :
  (∀ s, strings_TrimSpace (strings_TrimSpace s) = strings_TrimSpace s) →
  names_trimmed σ → addApp app σ = Ret r σ' → names_trimmed σ'.
Proof.
  intros Hidem Ht Hadd.
  pose proof (addApp_appState _ _ _ _ Hadd) as Hat.
  assert (Happ : ∀ b : App, heap σ' !! app = Some b →
                   strings_TrimSpace (Name b) = Name b).
  { destruct (heap σ !! app) as [a|] eqn:Ha;
      [|by rewrite addApp_nil in Hadd].
    rewrite (addApp_eq _ _ _ Ha) in Hadd. cbn zeta in Hadd.
    assert (Hq : ∀ σ2 r2 (b : App), readAppData app (trimmed app a σ) = Ret r2 σ2 →
       heap σ2 !! app = Some b → Name b = strings_TrimSpace (Name a)).
    { intros σ2 r2 b E. rewrite (readAppData_eq _ _ (trimName a)) in E;
        [|simpl; apply lookup_insert_eq].
      destruct (getDataDir _) as [d σ1| |] eqn:Ed; [|done..].
      apply getDataDir_Ret in Ed as ->. cbn zeta in E.
      destruct (PathExists _ _).
      - destruct (store_NewStoreCsv _ _) as [[fs' l] [e|]];
          injection E as <- <-; simpl; rewrite ?lookup_insert_eq;
          by intros [= <-].
      - injection E as <- <-. simpl. rewrite lookup_insert_eq.
        by intros [= <-]. }
    intros b Hb.
    destruct (negb _).
    { injection Hadd as <- <-. simpl in Hb. rewrite lookup_insert_eq in Hb.
      injection Hb as <-. simpl. apply Hidem. }
    destruct (findApp _ _) as [[l|] σ2| |]; [| |done..].
    { injection Hadd as <- <-. simpl in Hb. rewrite lookup_insert_eq in Hb.
      injection Hb as <-. simpl. apply Hidem. }
    destruct (readAppData app (trimmed app a σ)) as [[e|] σ2'| |] eqn:E;
      [| |done..]; injection Hadd as <- <-;
      rewrite (Hq _ _ _ eq_refl Hb); apply Hidem. }
  pose proof (addApp_frame _ _ _ _ Hadd) as (_ & _ & _ & Hne & _).
  intros l b Hl Hb.
  destruct (decide (l = app)) as [->|Hl']; [by apply Happ|].
  rewrite Hne in Hb; [|done].
  apply (Ht l b); [|done].
  destruct r as [e|]; rewrite Hat in Hl; [done|].
  apply elem_of_app in Hl as [Hl|Hl]; [done|].
  by apply list_elem_of_singleton in Hl.
Qed.

(** ** [userIsAdmin] *)

(** C9. An absent identity is never an administrator: for every app
    pointer and every state, [userIsAdmin(app, "")] returns false and
    changes nothing, whatever [AdminTwitterUser2] holds (the empty user
    does not match an empty admin slot). *)
Theorem userIsAdmin_empty_user (σ : State) (app : loc) :
  userIsAdmin app "" σ = Ret false σ.
Proof. reflexivity. Qed.

(** C6. [userIsAdmin(app, user)] changes nothing, and it is true exactly
    when [user] is not empty and equals [app.AdminTwitterUser] or
    [app.AdminTwitterUser2]. *)
Theorem userIsAdmin_spec (σ : State) (app : loc) (a : App) (user : string) :
  heap σ !! app = Some a →
  ∃ b, userIsAdmin app user σ = Ret b σ
       ∧ (b = true ↔
          user ≠ ""%string
          ∧ (user = AdminTwitterUser a ∨ user = AdminTwitterUser2 a)).
Proof.
  intros Ha. unfold userIsAdmin.
  destruct (user =? "")%string eqn:Eu.
  - exists false. split; [done|]. apply String.eqb_eq in Eu.
    split; [done|]. intros [Hne _]. done.
  - apply String.eqb_neq in Eu.
    unfold bind. rewrite (deref_Some _ _ _ Ha). eexists. split; [done|].
    rewrite orb_true_iff, !String.eqb_eq. naive_solver.
Qed.

(** ** [s3BackupEnabled] *)

Lemma s3BackupEnabled_Ret σ :
  ∃ b n, s3BackupEnabled σ = Ret b (set_notices n σ).
Proof.
  unfold s3BackupEnabled, bind, get, logger_Notice, logger_Noticef, modify,
    ret.
  repeat (match goal with
          | |- context [if ?c then _ else _] =>
              destruct c; cbn [negb];
              try (eexists false, _; reflexivity)
          end).
  exists true, (notices σ). by destruct σ.
Qed.

(** C10. [s3BackupEnabled] returns; it answers true if and only if the
    -no-backup flag is false, the -production flag is true and each of
    [AwsAccess], [AwsSecret], [S3BackupBucket] and [S3BackupDir] is
    present and not empty; it answers false as soon as one of these
    fails. Only the notices change. *)
Theorem s3BackupEnabled_iff (σ : State) :
  ∃ b n, s3BackupEnabled σ = Ret b (set_notices n σ)
         ∧ (b = true ↔ s3_conditions σ).
Proof.
  pose proof (stringEmpty_false (AwsAccess (config σ))) as H1.
  pose proof (stringEmpty_false (AwsSecret (config σ))) as H2.
  pose proof (stringEmpty_false (S3BackupBucket (config σ))) as H3.
  pose proof (stringEmpty_false (S3BackupDir (config σ))) as H4.
  unfold s3BackupEnabled, s3_conditions, bind, get, logger_Notice,
    logger_Noticef, modify, ret.
  destruct (noS3Backup (flags σ)); simpl;
    [eexists false, _; split; [reflexivity | naive_solver]|].
  destruct (inProduction (flags σ)); simpl;
    [|eexists false, _; split; [reflexivity | naive_solver]].
  repeat (match goal with
          | |- context [if stringEmpty ?x then _ else _] =>
              destruct (stringEmpty x); simpl;
              [eexists false, _; split; [reflexivity | naive_solver]|]
          end).
  exists true, (notices σ). split; [by destruct σ | naive_solver].
Qed.

(** ** [main] *)

Lemma readConfig_frame f σ r σ' :
  readConfig f σ = Ret r σ' →
  appState σ' = appState σ ∧ heap σ' = heap σ ∧ flags σ' = flags σ
  ∧ fs σ' = fs σ ∧ dataDir σ' = dataDir σ.
Proof.
  unfold readConfig, bind, get, modify, ret, panic, fmt_Printf,
    logger_Noticef.
  repeat case_match; intros [= <- <-]; simpl; try done;
    repeat match goal with
           | H : (match ?x with _ => _ end) _ = Ret _ _ |- _ => destruct x
           end;
    unfold modify in *; simplify_eq; done.
Qed.

Lemma NewApp_eq c σ :
  NewApp c σ
  = Ret (fresh (dom (heap σ)))
      (set_heap (<[fresh (dom (heap σ)) := mkApp c None]> (heap σ)) σ).
Proof. reflexivity. Qed.

Lemma fresh_lookup σ : heap σ !! fresh (dom (heap σ)) = None.
Proof. apply not_elem_of_dom, is_fresh. Qed.

Lemma main_range_app pre post σ :
  main_range (pre ++ post) σ
  = match main_range pre σ with
    | Ret _ σ1 => main_range post σ1
    | Exit m => Exit m
    | Panic => Panic
    end.
Proof.
  revert σ. induction pre as [|c pre IH]; intros σ; [done|].
  cbn [app main_range]. unfold bind at 1 5. rewrite NewApp_eq.
  unfold bind at 1 4. destruct (addApp _ _) as [r σ1| |]; [|done..].
  unfold bind at 1 3. destruct (deref _ σ1) as [a σ2| |]; [|done..].
  destruct r as [e|]; [done|].
  unfold bind. destruct (logger_Noticef _ _ σ2) as [[] σ3| |]; [|done..].
  apply IH.
Qed.

(** The loop stops the process at the first app that [addApp] refuses. *)
Lemma main_range_fails c post σ app σ1 e σ2 (a : App) :
  NewApp c σ = Ret app σ1 →
  addApp app σ1 = Ret (Some e) σ2 →
  heap σ2 !! app = Some a →
  main_range (c :: post) σ
  = Exit (Fatalf "Failed to add the app: %s, err: %s\n"
            [ArgString (Name a); ArgError e]).
Proof.
  intros Hn Hadd Ha. cbn [main_range]. unfold bind at 1. rewrite Hn.
  unfold bind at 1. rewrite Hadd. unfold bind at 1.
  by rewrite (deref_Some _ _ _ Ha).
Qed.

(** When the loop ends, every configured app is registered and ready. *)
Lemma main_range_Ret cfgs σ σ' :
  main_range cfgs σ = Ret tt σ' →
  ∃ new,
    Apps (appState σ') = (Apps (appState σ) ++ new)%list
    ∧ config σ' = config σ ∧ flags σ' = flags σ
    ∧ (∀ l, is_Some (heap σ !! l) → heap σ' !! l = heap σ !! l)
    ∧ Forall2 (λ c l, ∃ a : App, heap σ' !! l = Some a ∧ initialized c a)
        cfgs new.
Proof.
  revert σ. induction cfgs as [|c rest IH]; intros σ.
  - intros [= <-]. exists []. rewrite app_nil_r. repeat split; done.
  - cbn [main_range]. unfold bind at 1. rewrite NewApp_eq.
    set (app := fresh (dom (heap σ))).
    set (σ1 := set_heap _ σ).
    unfold bind at 1.
    destruct (addApp app σ1) as [r σ2| |] eqn:Hadd; [|done..].
    unfold bind at 1. destruct (deref app σ2) as [a σ2'| |] eqn:Hd; [|done..].
    apply deref_Ret in Hd as [Ha ->].
    destruct r as [e|]; [done|].
    unfold bind at 1, logger_Noticef, modify.
    set (σ3 := set_notices _ σ2). intros Hrest.
    destruct (IH _ Hrest) as (new & HA & HC & HF & HH & Hall).
    pose proof (addApp_appState _ _ _ _ Hadd) as Hat. cbn in Hat.
    pose proof (addApp_frame _ _ _ _ Hadd) as (HC2 & HF2 & _ & Hne & _).
    pose proof (addApp_nil_initialized _ _ _ Hadd)
      as (a0 & a' & Ha0 & Ha' & Hcfg & Hv & Hl).
    assert (a0 = mkApp c None) as ->.
    { subst σ1. simpl in Ha0. rewrite lookup_insert_eq in Ha0. congruence. }
    assert (a' = a) as -> by congruence.
    exists (app :: new). split; [|split; [|split; [|split]]].
    + rewrite HA. subst σ3. simpl. rewrite Hat. by rewrite <- app_assoc.
    + rewrite HC. subst σ3. simpl. by rewrite HC2.
    + rewrite HF. subst σ3. simpl. by rewrite HF2.
    + intros l Hl'. assert (l ≠ app) as Hneq.
      { intros ->. subst app. rewrite fresh_lookup in Hl'. by destruct Hl'. }
      rewrite HH.
      * subst σ3. simpl. rewrite Hne; [|done]. subst σ1. simpl.
        by rewrite lookup_insert_ne.
      * subst σ3. simpl. rewrite Hne; [|done]. subst σ1. simpl.
        by rewrite lookup_insert_ne.
    + constructor; [|done]. exists a. split; [|done].
      rewrite HH; subst σ3; simpl; [done | eauto].
Qed.

Lemma main_Ret_inv σ s σ' :
  main σ = Ret s σ' →
  ∃ σ1 σ2,
    readConfig (configPath (flags σ)) (production_switches σ) = Ret None σ1
    ∧ main_range (cfgApps (config σ1)) σ1 = Ret tt σ2
    ∧ Apps (appState σ2) ≠ []
    ∧ appState σ' = appState σ2 ∧ heap σ' = heap σ2 ∧ config σ' = config σ2.
Proof.
  unfold main. unfold bind at 1, get. unfold bind at 1.
  assert ((if inProduction (flags σ) then modify (set_logTime false false)
           else ret ()) σ = Ret tt (production_switches σ)) as ->.
  { unfold production_switches. by destruct (inProduction (flags σ)). }
  unfold bind at 1.
  destruct (readConfig _ _) as [[e|] σ1| |]; [done| |done..].
  unfold bind at 1, get. unfold bind at 1.
  destruct (main_range _ σ1) as [[] σ2| |] eqn:Hmr; [|done..].
  unfold bind at 1, get.
  destruct (Z.of_nat (length (Apps (appState σ2))) =? 0) eqn:Hlen; [done|].
  destruct (AwsAccess _) as [access|]; [|done].
  destruct (AwsSecret _) as [secret|]; [|done].
  destruct (S3BackupBucket _) as [bucket|]; [|done].
  destruct (S3BackupDir _) as [dir|]; [|done].
  unfold bind at 1. destruct (getDataDir σ2) as [d σ3| |] eqn:Hd; [|done..].
  apply getDataDir_Ret in Hd as ->.
  unfold bind at 1.
  destruct (s3BackupEnabled_Ret (set_dataDir d σ2)) as (b & n & ->).
  intros Hmain. exists σ1, σ2.
  split; [done|]. split; [done|].
  split; [intros Hnil; by rewrite Hnil in Hlen|].
  destruct (inProduction (flags σ2));
    unfold bind, logger_Noticef, modify, ret in Hmain;
    match type of Hmain with
    | context [getDataDir ?x] =>
        destruct (getDataDir x) as [d' σ4| |] eqn:Hd'
    end; try done;
    apply getDataDir_Ret in Hd' as ->; injection Hmain as <- <-; done.
Qed.

Lemma main_readConfig_fails σ e σ1 :
  readConfig (configPath (flags σ)) (production_switches σ)
  = Ret (Some e) σ1 →
  main σ = Exit (Fatalf "Failed reading config file %s. %s\n"
                   [ArgString (configPath (flags σ)); ArgError e]).
Proof.
  intros Hrc. unfold main. unfold bind at 1, get. unfold bind at 1.
  assert ((if inProduction (flags σ) then modify (set_logTime false false)
           else ret ()) σ = Ret tt (production_switches σ)) as ->.
  { unfold production_switches. by destruct (inProduction (flags σ)). }
  unfold bind at 1. by rewrite Hrc.
Qed.

Lemma main_range_exits σ σ1 m :
  readConfig (configPath (flags σ)) (production_switches σ) = Ret None σ1 →
  main_range (cfgApps (config σ1)) σ1 = Exit m →
  main σ = Exit m.
Proof.
  intros Hrc Hmr. unfold main. unfold bind at 1, get. unfold bind at 1.
  assert ((if inProduction (flags σ) then modify (set_logTime false false)
           else ret ()) σ = Ret tt (production_switches σ)) as ->.
  { unfold production_switches. by destruct (inProduction (flags σ)). }
  unfold bind at 1. rewrite Hrc.
  unfold bind at 1, get. unfold bind at 1. by rewrite Hmr.
Qed.

Lemma main_no_apps σ σ1 σ2 :
  readConfig (configPath (flags σ)) (production_switches σ) = Ret None σ1 →
  main_range (cfgApps (config σ1)) σ1 = Ret tt σ2 →
  Apps (appState σ2) = [] →
  main σ = Exit (Fatalf "No apps defined in config.json" []).
Proof.
  intros Hrc Hmr Hnil. unfold main. unfold bind at 1, get. unfold bind at 1.
  assert ((if inProduction (flags σ) then modify (set_logTime false false)
           else ret ()) σ = Ret tt (production_switches σ)) as ->.
  { unfold production_switches. by destruct (inProduction (flags σ)). }
  unfold bind at 1. rewrite Hrc.
  unfold bind at 1, get. unfold bind at 1. rewrite Hmr.
  unfold bind at 1, get. by rewrite Hnil.
Qed.

(** C5. Configuration errors are fatal at startup. From the initial
    state, [main] stops the process with [log.Fatalf] if [readConfig]
    returns an error, if [addApp] returns an error for a configured app
    (invalid field, duplicate name or data file), or if no app is
    configured; and when [main] does reach [srv.ListenAndServe], the
    registry is not empty and holds, in order, every configured app, each
    with its required fields and its store loaded. *)
Theorem main_fatal_before_serving (fl : Flags) (reload : bool) (f : FS) :
  let σ0 := initState fl reload f in
  (∀ e σ1,
     readConfig (configPath fl) (production_switches σ0) = Ret (Some e) σ1 →
     main σ0 = Exit (Fatalf "Failed reading config file %s. %s\n"
                       [ArgString (configPath fl); ArgError e]))
  ∧ (∀ σ1 pre c post σ2 app σ3 e σ4,
       readConfig (configPath fl) (production_switches σ0) = Ret None σ1 →
       cfgApps (config σ1) = (pre ++ c :: post)%list →
       main_range pre σ1 = Ret tt σ2 →
       NewApp c σ2 = Ret app σ3 →
       addApp app σ3 = Ret (Some e) σ4 →
       ∃ a : App, heap σ4 !! app = Some a
         ∧ main σ0 = Exit (Fatalf "Failed to add the app: %s, err: %s\n"
                             [ArgString (Name a); ArgError e]))
  ∧ (∀ σ1,
       readConfig (configPath fl) (production_switches σ0) = Ret None σ1 →
       cfgApps (config σ1) = [] →
       main σ0 = Exit (Fatalf "No apps defined in config.json" []))
  ∧ (∀ s σ',
       main σ0 = Ret s σ' →
       Apps (appState σ') ≠ []
       ∧ Forall2 (λ c l, ∃ a : App, heap σ' !! l = Some a ∧ initialized c a)
           (cfgApps (config σ')) (Apps (appState σ'))).
Proof.
  intros σ0. split; [|split; [|split]].
  - intros e σ1 Hrc. by apply (main_readConfig_fails σ0 e σ1).
  - intros σ1 pre c post σ2 app σ3 e σ4 Hrc Hcfg Hpre Hnew Hadd.
    assert (is_Some (heap σ4 !! app)) as [a Ha].
    { apply addApp_frame in Hadd as (_ & _ & _ & _ & Hsome). apply Hsome.
      rewrite NewApp_eq in Hnew. injection Hnew as <- <-. simpl.
      rewrite lookup_insert_eq. eauto. }
    exists a. split; [done|].
    apply (main_range_exits σ0 σ1); [done|].
    rewrite Hcfg, main_range_app, Hpre.
    by apply (main_range_fails c post σ2 app σ3 e σ4 a).
  - intros σ1 Hrc Hcfg.
    apply (main_no_apps σ0 σ1 σ1); [done | by rewrite Hcfg |].
    apply readConfig_frame in Hrc as (-> & _).
    unfold production_switches. by destruct (inProduction _).
  - intros s σ' Hmain.
    apply main_Ret_inv in Hmain
      as (σ1 & σ2 & Hrc & Hmr & Hne & HA & HH & HC).
    rewrite HA, HH, HC. split; [done|].
    apply main_range_Ret in Hmr as (new & HA2 & HC2 & _ & _ & Hall).
    apply readConfig_frame in Hrc as (HA1 & _).
    assert (Apps (appState σ1) = []) as Hnil.
    { rewrite HA1. unfold production_switches. by destruct (inProduction _). }
    rewrite HA2, Hnil, HC2. done.
Qed.

(** ** The registry in the states that [main] goes through *)

Lemma initState_wf fl reload f : registry_wf (initState fl reload f).
Proof. intros l Hl. by apply elem_of_nil in Hl. Qed.

Lemma initState_names_trimmed fl reload f :
  names_trimmed (initState fl reload f).
Proof. intros l b Hl. by apply elem_of_nil in Hl. Qed.

Lemma NewApp_wf c σ app σ' :
  registry_wf σ → NewApp c σ = Ret app σ' →
  registry_wf σ' ∧ (app ∉ Apps (appState σ'))
  ∧ heap σ' !! app = Some (mkApp c None).
Proof.
  intros Hwf. rewrite NewApp_eq. intros [= <- <-]. split; [|split].
  - intros l Hl. simpl. destruct (decide (fresh (dom (heap σ)) = l)) as [->|Hne].
    + rewrite lookup_insert_eq. eauto.
    + rewrite lookup_insert_ne; [|done]. by apply Hwf.
  - intros Hin. apply Hwf in Hin. rewrite fresh_lookup in Hin. by destruct Hin.
  - simpl. apply lookup_insert_eq.
Qed.

Lemma NewApp_names_trimmed c σ app σ' :
  registry_wf σ → names_trimmed σ → NewApp c σ = Ret app σ' →
  names_trimmed σ'.
Proof.
  intros Hwf Ht. rewrite NewApp_eq. intros [= <- <-] l b Hl Hb.
  simpl in Hl, Hb. rewrite lookup_insert_ne in Hb; [by eapply Ht|].
  intros <-. apply Hwf in Hl. rewrite fresh_lookup in Hl. by destruct Hl.
Qed.

Lemma main_range_inv cfgs σ σ' :
  (∀ s, strings_TrimSpace (strings_TrimSpace s) = strings_TrimSpace s) →
  registry_wf σ → names_trimmed σ →
  main_range cfgs σ = Ret tt σ' →
  registry_wf σ' ∧ names_trimmed σ'.
Proof.
  intros Hidem. revert σ. induction cfgs as [|c rest IH]; intros σ Hwf Ht.
  - by intros [= <-].
  - cbn [main_range]. unfold bind at 1.
    destruct (NewApp c σ) as [app σ1| |] eqn:Hnew; [|done..].
    pose proof (NewApp_wf _ _ _ _ Hwf Hnew) as (Hwf1 & _).
    pose proof (NewApp_names_trimmed _ _ _ _ Hwf Ht Hnew) as Ht1.
    unfold bind at 1.
    destruct (addApp app σ1) as [r σ2| |] eqn:Hadd; [|done..].
    pose proof (addApp_wf _ _ _ _ Hwf1 Hadd) as Hwf2.
    pose proof (addApp_names_trimmed _ _ _ _ Hidem Ht1 Hadd) as Ht2.
    unfold bind at 1. destruct (deref app σ2) as [a σ2'| |] eqn:Hd; [|done..].
    apply deref_Ret in Hd as [Ha ->].
    destruct r as [e|]; [done|].
    unfold bind at 1, logger_Noticef, modify. by apply IH.
Qed.

(** When [addApp] refuses an app that is not registered, the registered
    apps are what they were. *)
Lemma addApp_error_registered σ app e σ' :
  addApp app σ = Ret (Some e) σ' →
  app ∉ Apps (appState σ) →
  registered σ' = registered σ.
Proof.
  intros Hadd Hnin.
  pose proof (addApp_appState _ _ _ _ Hadd) as Hat. cbn in Hat.
  pose proof (addApp_frame _ _ _ _ Hadd) as (_ & _ & _ & Hne & _).
  unfold registered. rewrite Hat.
  induction (Apps (appState σ)) as [|l ls IH]; [done|].
  apply not_elem_of_cons in Hnin as [Hl Hls]. cbn [omap list_omap].
  rewrite (Hne l); [|done]. by rewrite IH.
Qed.

(** ** The counters of an app *)

Lemma with_store_eq σ app (a : App) s F :
  heap σ !! app = Some a → store a = Some s →
  with_store app F σ = Ret (F s) σ.
Proof.
  intros Ha Hs. unfold with_store, bind. rewrite (deref_Some _ _ _ Ha).
  by rewrite Hs.
Qed.

(** C1 (amended). [LangsCount] returns the length of the table
    [store.Languages]: the same number for every app, whatever the app's
    store holds; the counts of strings, of untranslated strings and of
    edits are those of the app's own store. *)
Theorem LangsCount_table_length (σ : State) (app : loc) (a : App)
    (s : StoreCsv) :
  heap σ !! app = Some a →
  store a = Some s →
  LangsCount app = Z.of_nat (length store_Languages)
  ∧ (∀ app', LangsCount app' = LangsCount app)
  ∧ StringsCount app σ = Ret (StoreCsv_StringsCount s) σ
  ∧ UntranslatedCount app σ = Ret (StoreCsv_UntranslatedCount s) σ
  ∧ EditsCount app σ = Ret (StoreCsv_EditsCount s) σ.
Proof.
  intros Ha Hs. split; [done|]. split; [done|].
  unfold StringsCount, UntranslatedCount, EditsCount.
  by rewrite !(with_store_eq _ _ _ _ _ Ha Hs).
Qed.

End Properties.

(** * Further properties *)

Section Further.
Context `{Ext : Externals}.


(** ** More on [getDataDir] *)

Lemma getDataDir_search σ :
  dataDir σ = ""%string →
  getDataDir σ
  = if PathExists (fs σ) serverDataDir then
      Ret serverDataDir (set_dataDir serverDataDir σ)
    else if PathExists (fs σ) localDataDir then
      Ret localDataDir (set_dataDir localDataDir σ)
    else Exit noDataDir.
Proof.
  intros H. unfold getDataDir, bind, get. rewrite H. cbn [String.eqb negb].
  cbn [getDataDir_range]. unfold bind, get, modify, ret, log_Fatalf.
  fold serverDataDir localDataDir.
  destruct (PathExists (fs σ) serverDataDir); [done|].
  destruct (PathExists (fs σ) localDataDir); done.
Qed.

(** X1. When no data directory is known yet, [getDataDir] returns a
    directory only if it exists: the server directory [../../data] when
    it exists, else the local directory under the home directory when
    that exists; the directory returned is recorded in [dataDir] and
    nothing else changes. *)
Theorem getDataDir_finds_existing (σ σ' : State) (d : string) :
  dataDir σ = ""%string →
  getDataDir σ = Ret d σ' →
  PathExists (fs σ) d = true
  ∧ σ' = set_dataDir d σ
  ∧ (d = serverDataDir
     ∨ (d = localDataDir ∧ PathExists (fs σ) serverDataDir = false)).
Proof.
  intros H. rewrite (getDataDir_search _ H).
  destruct (PathExists (fs σ) serverDataDir) eqn:E1.
  - intros [= <- <-]. eauto.
  - destruct (PathExists (fs σ) localDataDir) eqn:E2; [|done].
    intros [= <- <-]. eauto.
Qed.

(** X2. [getDataDir] stops the process with [log.Fatalf] exactly when
    no data directory is known and neither the server directory nor the
    local directory exists; it never panics. *)
Theorem getDataDir_fatal_iff (σ : State) (m : fatalMsg) :
  getDataDir σ ≠ Panic
  ∧ (getDataDir σ = Exit m ↔
     dataDir σ = ""%string
     ∧ PathExists (fs σ) serverDataDir = false
     ∧ PathExists (fs σ) localDataDir = false
     ∧ m = noDataDir).
Proof.
  destruct (decide (dataDir σ = ""%string)) as [H|H].
  - rewrite (getDataDir_search _ H).
    destruct (PathExists (fs σ) serverDataDir);
      [split; [done|]; split; [done | by intros (_ & ? & _)]|].
    destruct (PathExists (fs σ) localDataDir);
      [split; [done|]; split; [done | by intros (_ & _ & ? & _)]|].
    split; [done|]. split; [by intros [= <-] | by intros (_ & _ & _ & ->)].
  - rewrite (getDataDir_known _ H). split; [done|].
    split; [done | by intros [? _]].
Qed.

(** X3. [getDataDir] remembers its answer: once it has returned a
    directory that is not the empty string, every later call returns the
    same directory and changes nothing, whatever becomes of the file
    system. *)
Theorem getDataDir_remembers (σ σ' : State) (d : string) (f : FS) :
  getDataDir σ = Ret d σ' →
  d ≠ ""%string →
  getDataDir (set_fs f σ') = Ret d (set_fs f σ').
Proof.
  intros H Hd. apply getDataDir_Ret in H as ->.
  by rewrite (getDataDir_known (set_fs f (set_dataDir d σ)) Hd).
Qed.



(** ** More on [readAppData] *)

(** X4. When the log file is absent at the path of [storeCsvFilePath],
    [readAppData] returns the error [data file doesn't exist] for that
    path; no file is created, the file system and every [App] are left as
    they were, and only [dataDir] may have been recorded. *)
Theorem readAppData_absent (σ σ1 : State) (app : loc) (a : App) (d : string) :
  heap σ !! app = Some a →
  getDataDir σ = Ret d σ1 →
  PathExists (fs σ) (csvPath d a) = false →
  readAppData app σ = Ret (Some (missing_error (csvPath d a))) σ1
  ∧ σ1 = set_dataDir d σ
  ∧ PathExists (fs σ1) (csvPath d a) = false.
Proof.
  intros Ha Hd Hp.
  destruct (readAppData_missing_file _ _ _ _ _ Ha Hd Hp) as (Hr & Hfs & _).
  split; [done|]. apply getDataDir_Ret in Hd as ->. done.
Qed.

(** X5. When the log file exists and [store.NewStoreCsv] opens it
    without error, [readAppData] returns [nil]; the app keeps its
    configuration and its [store] is the store that was opened; the file
    system is the one [store.NewStoreCsv] left. *)
Theorem readAppData_loads (σ σ1 : State) (app : loc) (a : App) (d : string)
    (fs' : FS) (l : option StoreCsv) :
  heap σ !! app = Some a →
  getDataDir σ = Ret d σ1 →
  PathExists (fs σ) (csvPath d a) = true →
  store_NewStoreCsv (csvPath d a) (fs σ) = (fs', l, None) →
  ∃ σ', readAppData app σ = Ret None σ'
        ∧ heap σ' !! app = Some (mkApp (App_AppConfig a) l)
        ∧ fs σ' = fs'
        ∧ loaded (mkApp (App_AppConfig a) l).
Proof.
  intros Ha Hd Hp Hn. rewrite (readAppData_eq _ _ _ Ha), Hd. cbn zeta.
  rewrite Hp, Hn. eexists. split; [done|].
  split; [simpl; apply lookup_insert_eq|]. split; [done|].
  by exists d, (fs σ), fs'.
Qed.

(** X6. Every error that [readAppData] returns is the error
    [data file doesn't exist] for the path of the app's log file, and
    then no [App] has changed: in particular the app's [store] is not
    set. *)
Theorem readAppData_error (σ σ' : State) (app : loc) (e : error) :
  readAppData app σ = Ret (Some e) σ' →
  heap σ' = heap σ
  ∧ ∃ (a : App) d, heap σ !! app = Some a
      ∧ e = missing_error (csvPath d a) ∧ dataDir σ' = d.
Proof.
  destruct (heap σ !! app) as [a|] eqn:Ha;
    [|intros H; by apply readAppData_nil in H].
  rewrite (readAppData_eq _ _ _ Ha).
  destruct (getDataDir σ) as [d σ1| |] eqn:E; [|done..].
  apply getDataDir_Ret in E as ->. cbn zeta.
  destruct (PathExists (fs σ) (csvPath d a)).
  - destruct (store_NewStoreCsv (csvPath d a) (fs σ)) as [[fs' l] [e'|]];
      [|done]. intros [= <- <-]. split; [done|]. by exists a, d.
  - intros [= <- <-]. split; [done|]. by exists a, d.
Qed.

(** X7. Whatever [readAppData] returns, the registry, the configuration
    and the flags are unchanged, every other [App] is unchanged, and the
    app itself keeps its configuration: only its [store] may change. *)
Theorem readAppData_changes_store_only (σ σ' : State) (app : loc)
    (r : option error) :
  readAppData app σ = Ret r σ' →
  appState σ' = appState σ ∧ config σ' = config σ ∧ flags σ' = flags σ
  ∧ (∀ l, l ≠ app → heap σ' !! l = heap σ !! l)
  ∧ ∃ a a' : App, heap σ !! app = Some a ∧ heap σ' !! app = Some a'
      ∧ App_AppConfig a' = App_AppConfig a.
Proof.
  intros H. pose proof (readAppData_frame _ _ _ _ H) as (HA & HC & HF & HH & _).
  repeat (split; [done|]).
  destruct (heap σ !! app) as [a|] eqn:Ha; [|by apply readAppData_nil in H].
  rewrite (readAppData_eq _ _ _ Ha) in H.
  destruct (getDataDir σ) as [d σ1| |] eqn:E; [|done..].
  apply getDataDir_Ret in E as ->. cbn zeta in H.
  destruct (PathExists (fs σ) (csvPath d a)).
  - destruct (store_NewStoreCsv (csvPath d a) (fs σ)) as [[fs' l] [e'|]];
      injection H as <- <-.
    + by exists a, a.
    + exists a, (mkApp a l). split; [done|].
      split; [simpl; apply lookup_insert_eq | done].
  - injection H as <- <-. by exists a, a.
Qed.



(** ** More on [addApp] and [findApp] *)

Lemma addApp_exists σ app (a : App) :
  registry_wf σ →
  heap σ !! app = Some a →
  valid (trimName a) →
  (∃ l (b : App), l ∈ Apps (appState σ) ∧ heap σ !! l = Some b
     ∧ Name b = strings_TrimSpace (Name a)) →
  addApp app σ
  = Ret (Some (errors_New "App already exists")) (trimmed app a σ).
Proof.
  intros Hwf Ha Hv (l & b & Hl & Hb & Hn).
  rewrite (addApp_eq _ _ _ Ha). cbn zeta.
  apply invalidField_valid in Hv. rewrite Hv. cbn [String.eqb negb].
  pose proof (trimmed_wf σ app a Hwf) as Hwf1.
  destruct (findApp_range_spec (trimmed app a σ) (Apps (appState σ))
              (strings_TrimSpace (Name a)) Hwf1) as (r & Hr & Hspec).
  change (Name (trimName a)) with (strings_TrimSpace (Name a)).
  unfold findApp, bind, get. simpl in Hr |- *. rewrite Hr.
  destruct r as [l'|]; [done|]. exfalso.
  destruct (decide (app = l)) as [->|Hne].
  - eapply (Hspec l (trimName a)); [done| |done].
    simpl. apply lookup_insert_eq.
  - eapply (Hspec l b); [done| |done]. simpl. by rewrite lookup_insert_ne.
Qed.

(** What a successful [addApp] tells about the registry. *)
Lemma addApp_nil_fresh σ app σ' :
  registry_wf σ →
  addApp app σ = Ret None σ' →
  (app ∉ Apps (appState σ))
  ∧ ∃ a a' : App, heap σ !! app = Some a ∧ heap σ' !! app = Some a'
      ∧ Name a' = strings_TrimSpace (Name a)
      ∧ (∀ l (b : App), l ∈ Apps (appState σ) → heap σ' !! l = Some b →
           Name b ≠ Name a')
      ∧ (∀ l, l ≠ app → heap σ' !! l = heap σ !! l).
Proof.
  intros Hwf Hadd.
  pose proof (addApp_frame _ _ _ _ Hadd) as (_ & _ & _ & Hne & _).
  pose proof (addApp_nil_initialized _ _ _ Hadd)
    as (a & a' & Ha & Ha' & Hcfg & _ & _).
  assert (Name a' = strings_TrimSpace (Name a)) as Hname.
  { change (Name (App_AppConfig a') = strings_TrimSpace (Name a)).
    by rewrite Hcfg. }
  rewrite (addApp_eq _ _ _ Ha) in Hadd. cbn zeta in Hadd.
  destruct (negb _); [done|].
  pose proof (trimmed_wf σ app a Hwf) as Hwf1.
  destruct (findApp_range_spec (trimmed app a σ) (Apps (appState σ))
              (strings_TrimSpace (Name a)) Hwf1) as (r & Hr & Hspec).
  change (Name (trimName a)) with (strings_TrimSpace (Name a)) in Hadd.
  unfold findApp, bind, get in Hadd. simpl in Hr, Hadd. rewrite Hr in Hadd.
  destruct r as [l'|]; [done|].
  assert (app ∉ Apps (appState σ)) as Hnin.
  { intros Hin. eapply (Hspec app (trimName a)); [done| |done].
    simpl. apply lookup_insert_eq. }
  split; [done|]. exists a, a'. repeat (split; [done|]). split; [|done].
  intros l b Hl Hb. rewrite Hname.
  assert (l ≠ app) as Hl' by (intros ->; done).
  rewrite Hne in Hb; [|done].
  eapply (Hspec l b); [done|]. simpl. by rewrite lookup_insert_ne.
Qed.

Lemma findApp_range_skip σ pre post name :
  (∀ l, l ∈ pre → ∃ b : App, heap σ !! l = Some b ∧ Name b ≠ name) →
  findApp_range (pre ++ post) name σ = findApp_range post name σ.
Proof.
  induction pre as [|l pre IH]; intros H; [done|].
  destruct (H l) as (b & Hb & Hn); [left|].
  cbn [List.app findApp_range]. unfold bind at 1. rewrite (deref_Some _ _ _ Hb).
  apply String.eqb_neq in Hn. rewrite Hn. apply IH.
  intros l' Hl'. apply H. by right.
Qed.

(** X8. An app that [addApp] accepts was not registered before; it is
    appended to the registry with its name trimmed, all its required
    fields present and its store loaded from its log file. *)
Theorem addApp_accepts (σ σ' : State) (app : loc) :
  registry_wf σ →
  addApp app σ = Ret None σ' →
  (app ∉ Apps (appState σ))
  ∧ Apps (appState σ') = (Apps (appState σ) ++ [app])%list
  ∧ ∃ a a' : App, heap σ !! app = Some a ∧ heap σ' !! app = Some a'
      ∧ App_AppConfig a' = App_AppConfig (trimName a)
      ∧ valid a' ∧ loaded a'.
Proof.
  intros Hwf Hadd.
  split; [by apply (addApp_nil_fresh _ _ _ Hwf Hadd)|].
  split; [by apply (addApp_appState _ _ _ _ Hadd)|].
  by apply addApp_nil_initialized.
Qed.

(** X9. An app that [addApp] has accepted is the one that [findApp]
    returns for its name. *)
Theorem addApp_then_findApp (σ σ' : State) (app : loc) :
  registry_wf σ →
  addApp app σ = Ret None σ' →
  ∃ a' : App, heap σ' !! app = Some a'
    ∧ findApp (Name a') σ' = Ret (Some app) σ'.
Proof.
  intros Hwf Hadd.
  pose proof (addApp_appState _ _ _ _ Hadd) as Hat. cbn in Hat.
  pose proof (addApp_frame _ _ _ _ Hadd) as (_ & _ & _ & _ & Hsome).
  destruct (addApp_nil_fresh _ _ _ Hwf Hadd)
    as (Hnin & a & a' & Ha & Ha' & Hname & Hfresh & Hne).
  exists a'. split; [done|].
  unfold findApp, bind, get. rewrite Hat.
  rewrite findApp_range_skip.
  - cbn [findApp_range]. unfold bind. rewrite (deref_Some _ _ _ Ha').
    by rewrite String.eqb_refl.
  - intros l Hl. destruct (Hsome l (Hwf l Hl)) as [b Hb].
    exists b. split; [done|]. by eapply Hfresh.
Qed.

(** X10. Once [addApp] has accepted an app, [addApp] refuses every app
    with all required fields whose trimmed name is the name of that app,
    with the error [App already exists]. *)
Theorem addApp_twice (σ σ' : State) (app app2 : loc) (a' b : App) :
  registry_wf σ →
  addApp app σ = Ret None σ' →
  heap σ' !! app = Some a' →
  heap σ' !! app2 = Some b →
  valid (trimName b) →
  strings_TrimSpace (Name b) = Name a' →
  addApp app2 σ'
  = Ret (Some (errors_New "App already exists")) (trimmed app2 b σ').
Proof.
  intros Hwf Hadd Ha' Hb Hv Hn.
  pose proof (addApp_appState _ _ _ _ Hadd) as Hat. cbn in Hat.
  apply addApp_exists; [by eapply addApp_wf|done|done|].
  exists app, a'. split; [|done]. rewrite Hat. apply elem_of_app. right.
  by apply list_elem_of_singleton.
Qed.

(** *** Names are registered once *)

Lemma registered_ext σ σ' :
  Apps (appState σ') = Apps (appState σ) →
  (∀ l, l ∈ Apps (appState σ) → heap σ' !! l = heap σ !! l) →
  registered σ' = registered σ.
Proof.
  unfold registered. intros -> H.
  induction (Apps (appState σ)) as [|l ls IH]; [done|].
  cbn [omap list_omap]. rewrite (H l); [|left].
  rewrite IH; [done|]. intros l' Hl'. apply H. by right.
Qed.

Lemma registered_snoc σ σ' app (a' : App) :
  Apps (appState σ') = (Apps (appState σ) ++ [app])%list →
  (∀ l, l ∈ Apps (appState σ) → heap σ' !! l = heap σ !! l) →
  heap σ' !! app = Some a' →
  registered σ' = (registered σ ++ [a'])%list.
Proof.
  unfold registered. intros -> H Ha'.
  induction (Apps (appState σ)) as [|l ls IH].
  - cbn. by rewrite Ha'.
  - cbn [List.app omap list_omap]. rewrite (H l); [|left].
    rewrite IH; [by destruct (heap σ !! l)|].
    intros l' Hl'. apply H. by right.
Qed.

Lemma registered_names_elem σ n :
  n ∈ registered_names σ →
  ∃ l (b : App), l ∈ Apps (appState σ) ∧ heap σ !! l = Some b ∧ Name b = n.
Proof.
  unfold registered_names, registered. intros H.
  apply list_elem_of_fmap in H as (b & -> & Hb).
  apply list_elem_of_omap in Hb as (l & Hl & Hlb). by exists l, b.
Qed.

Lemma addApp_keeps_names_distinct (σ σ' : State) (app : loc) (r : option error) :
  registry_wf σ →
  app ∉ Apps (appState σ) →
  NoDup (registered_names σ) →
  addApp app σ = Ret r σ' →
  NoDup (registered_names σ').
Proof.
  intros Hwf Hnin Hnd Hadd.
  pose proof (addApp_appState _ _ _ _ Hadd) as Hat.
  pose proof (addApp_frame _ _ _ _ Hadd) as (_ & _ & _ & Hne & _).
  assert (Hsame : ∀ l, l ∈ Apps (appState σ) → heap σ' !! l = heap σ !! l).
  { intros l Hl. apply Hne. by intros ->. }
  destruct r as [e|].
  - unfold registered_names. rewrite (registered_ext σ σ'); [done| |done].
    by rewrite Hat.
  - destruct (addApp_nil_fresh _ _ _ Hwf Hadd)
      as (_ & a & a' & Ha & Ha' & Hname & Hfresh & _).
    unfold registered_names.
    rewrite (registered_snoc σ σ' app a' Hat Hsame Ha'), fmap_app.
    apply NoDup_app. split; [done|]. split; [|apply NoDup_singleton].
    intros n Hn Hn'. apply list_elem_of_singleton in Hn' as ->.
    apply registered_names_elem in Hn as (l & b & Hl & Hb & Hnb).
    eapply (Hfresh l b); [done| |done]. by rewrite Hsame.
Qed.

(** X11. [addApp] keeps the registered names distinct: when it is given
    an app that is not registered yet and no two registered apps share a
    name, no two registered apps share a name afterwards. *)
Theorem addApp_unique_names (σ σ' : State) (app : loc) (r : option error) :
  registry_wf σ →
  app ∉ Apps (appState σ) →
  NoDup (registered_names σ) →
  addApp app σ = Ret r σ' →
  NoDup (registered_names σ').
Proof. apply addApp_keeps_names_distinct. Qed.

Lemma getDataDir_fatal_iff_aux σ :
  getDataDir σ ≠ Panic
  ∧ ∀ m, getDataDir σ = Exit m →
      dataDir σ = ""%string
      ∧ PathExists (fs σ) serverDataDir = false
      ∧ PathExists (fs σ) localDataDir = false
      ∧ m = noDataDir.
Proof.
  destruct (decide (dataDir σ = ""%string)) as [H|H].
  - rewrite (getDataDir_search _ H).
    destruct (PathExists (fs σ) serverDataDir); [done|].
    destruct (PathExists (fs σ) localDataDir); [done|].
    split; [done|]. by intros m [= <-].
  - by rewrite (getDataDir_known _ H).
Qed.

(** X12. [addApp] changes no [App] other than the one it is given, and
    neither the configuration, the flags nor the users; when it refuses
    an app that is not registered, the registered apps are exactly what
    they were. *)
Theorem addApp_touches_only_app (σ σ' : State) (app : loc)
    (r : option error) :
  addApp app σ = Ret r σ' →
  config σ' = config σ ∧ flags σ' = flags σ
  ∧ Users (appState σ') = Users (appState σ)
  ∧ (∀ l, l ≠ app → heap σ' !! l = heap σ !! l)
  ∧ (is_Some r → app ∉ Apps (appState σ) → registered σ' = registered σ).
Proof.
  intros Hadd.
  pose proof (addApp_frame _ _ _ _ Hadd) as (HC & HF & HU & Hne & _).
  repeat (split; [done|]). intros [e ->] Hnin.
  by apply (addApp_error_registered _ _ _ _ Hadd).
Qed.

(** X13. [addApp] returns the error [App has invalid field %q] exactly
    for the apps that lack a required field: the trimmed name,
    [DataDir], [AdminTwitterUser] or [UploadSecret]. [Url] and
    [AdminTwitterUser2] are not required. *)
Theorem addApp_invalid_iff (σ : State) (app : loc) (a : App) :
  heap σ !! app = Some a →
  (∃ field σ',
     addApp app σ = Ret (Some (Errorf "App has invalid field %q" [field])) σ')
  ↔ (strings_TrimSpace (Name a) = ""%string ∨ DataDir a = ""%string
     ∨ AdminTwitterUser a = ""%string ∨ UploadSecret a = ""%string).
Proof.
  intros Ha. rewrite <- not_valid_trimName. split.
  - intros (field & σ' & Hadd) Hv.
    by apply (addApp_valid_field _ _ _ field σ' Ha Hv).
  - intros Hv. exists (invalidField (trimName a)), (trimmed app a σ).
    rewrite (addApp_eq _ _ _ Ha). cbn zeta.
    destruct (invalidField (trimName a) =? "")%string eqn:E; [|done].
    apply String.eqb_eq, invalidField_valid in E. done.
Qed.

(** X14. In a registry whose pointers are valid, [addApp] of an
    allocated app never panics, and it stops the process only for an app
    with all required fields when no data directory is known and neither
    the server directory nor the local directory exists. *)
Theorem addApp_exits_without_data_dir (σ : State) (app : loc) (a : App) :
  registry_wf σ →
  heap σ !! app = Some a →
  addApp app σ ≠ Panic
  ∧ ∀ m, addApp app σ = Exit m →
      valid (trimName a)
      ∧ dataDir σ = ""%string
      ∧ PathExists (fs σ) serverDataDir = false
      ∧ PathExists (fs σ) localDataDir = false
      ∧ m = noDataDir.
Proof.
  intros Hwf Ha. rewrite (addApp_eq _ _ _ Ha). cbn zeta.
  destruct (invalidField (trimName a) =? "")%string eqn:Hv;
    [|split; [done | by intros m]].
  apply String.eqb_eq, invalidField_valid in Hv. cbn [negb].
  pose proof (trimmed_wf σ app a Hwf) as Hwf1.
  destruct (findApp_range_spec (trimmed app a σ) (Apps (appState σ))
              (Name (trimName a)) Hwf1) as (r & Hr & _).
  unfold findApp, bind, get. simpl in Hr |- *. rewrite Hr.
  destruct r as [l|]; [split; [done | by intros m]|].
  rewrite (readAppData_eq (trimmed app a σ) app (trimName a));
    [|simpl; apply lookup_insert_eq].
  pose proof (getDataDir_fatal_iff_aux (trimmed app a σ)) as Hg.
  destruct (getDataDir (trimmed app a σ)) as [d σ1| |] eqn:E.
  - cbn zeta.
    destruct (PathExists (fs (trimmed app a σ)) (csvPath d (trimName a))).
    + destruct (store_NewStoreCsv _ _) as [[fs' l] [e|]];
        (split; [done | by intros m]).
    + split; [done | by intros m].
  - split; [done|]. intros m' [= ->]. split; [done|]. by apply Hg.
  - by destruct (proj1 Hg).
Qed.

(** X15. When trimming twice is trimming once, [appInvalidField] can be
    repeated: a second call reports the same field and leaves the state as
    the first call left it. *)
Theorem appInvalidField_again (σ σ1 : State) (app : loc) (field : string) :
  (∀ s, strings_TrimSpace (strings_TrimSpace s) = strings_TrimSpace s) →
  appInvalidField app σ = Ret field σ1 →
  appInvalidField app σ1 = Ret field σ1.
Proof.
  intros Hidem. destruct (heap σ !! app) as [a|] eqn:Ha.
  - rewrite (appInvalidField_eq _ _ _ Ha). intros [= <- <-].
    rewrite (appInvalidField_eq _ app (trimName a));
      [|simpl; apply lookup_insert_eq].
    assert (trimName (trimName a) = trimName a) as ->.
    { unfold trimName. simpl. by rewrite Hidem. }
    f_equal. simpl. by rewrite insert_insert_eq.
  - unfold appInvalidField. unfold bind at 1. by rewrite (deref_None _ _ Ha).
Qed.

(** ** More on [s3BackupEnabled] and [readConfig] *)

(** X16. [s3BackupEnabled] logs nothing when it answers true, and
    exactly one notice, which says why, when it answers false; it
    changes nothing else. With -no-backup the notice is the one of that
    flag, whatever the rest of the configuration. *)
Theorem s3BackupEnabled_notices (σ σ' : State) (b : bool) :
  s3BackupEnabled σ = Ret b σ' →
  if b then σ' = σ
  else ∃ msg, σ' = set_notices (notices σ ++ [(msg, [])]) σ
         ∧ (noS3Backup (flags σ) = true →
            msg = "s3 backups disabled because -no-backup flag"%string).
Proof.
  unfold s3BackupEnabled, bind, get, logger_Notice, logger_Noticef, modify,
    ret.
  destruct (noS3Backup (flags σ));
    [intros [= <- <-]; eexists; split; [reflexivity | done]|].
  destruct (inProduction (flags σ)); cbn [negb];
    [|intros [= <- <-]; eexists; split; [reflexivity | done]].
  repeat (match goal with
          | |- context [if stringEmpty ?x then _ else _] =>
              destruct (stringEmpty x);
              [intros [= <- <-]; eexists; split; [reflexivity | done]|]
          end).
  by intros [= <- <-].
Qed.

(** X17. [readConfig] reads: whatever it returns, the registry, the
    [App] objects, the file system, the flags and [dataDir] are
    unchanged. *)
Theorem readConfig_reads_only (σ σ' : State) (configFile : string)
    (r : option error) :
  readConfig configFile σ = Ret r σ' →
  appState σ' = appState σ ∧ heap σ' = heap σ ∧ flags σ' = flags σ
  ∧ fs σ' = fs σ ∧ dataDir σ' = dataDir σ.
Proof. apply readConfig_frame. Qed.

(** X18. When the configuration file cannot be read, [readConfig]
    returns the error of [ioutil.ReadFile] and changes nothing: this is
    so for a file that is absent and for a directory. *)
Theorem readConfig_unreadable (σ : State) (configFile : string) :
  (∀ b, fs σ configFile ≠ Some (File b)) →
  ∃ e, readConfig configFile σ = Ret (Some e) σ
       ∧ ReadFile (fs σ) configFile = (""%string, Some e).
Proof.
  intros H. unfold readConfig, bind, get, ReadFile.
  destruct (fs σ configFile) as [[|b]|]; [| by destruct (H b) |];
    eexists; split; reflexivity.
Qed.

(** X19. A configuration that decodes without [CookieAuthKeyHexStr]
    makes [readConfig] panic, and so does one without
    [CookieEncrKeyHexStr] once the first key is decoded: the keys are
    dereferenced without a check. *)
Theorem readConfig_missing_key_panics (σ : State) (configFile b : string)
    (c : Config) :
  fs σ configFile = Some (File b) →
  json_Unmarshal b (config σ) = (c, None) →
  (CookieAuthKeyHexStr c = None
   ∨ ∃ authHex auth, CookieAuthKeyHexStr c = Some authHex
       ∧ hex_DecodeString authHex = (auth, None)
       ∧ CookieEncrKeyHexStr c = None) →
  readConfig configFile σ = Panic.
Proof.
  intros Hf Hu H. unfold readConfig, bind, get, ReadFile. rewrite Hf, Hu.
  unfold modify at 1.
  destruct H as [->|(authHex & auth & -> & -> & ->)]; done.
Qed.

(** X20. When [readConfig] returns [nil], the file was read and decoded
    into the new [config], both cookie keys were present and decoded
    into [cookieAuthKey] and [cookieEncrKey], and [securecookie] accepted
    them; nothing was printed. *)
Theorem readConfig_nil (σ σ' : State) (configFile : string) :
  readConfig configFile σ = Ret None σ' →
  ∃ b authHex encrHex,
    fs σ configFile = Some (File b)
    ∧ json_Unmarshal b (config σ) = (config σ', None)
    ∧ CookieAuthKeyHexStr (config σ') = Some authHex
    ∧ hex_DecodeString authHex = (cookieAuthKey σ', None)
    ∧ CookieEncrKeyHexStr (config σ') = Some encrHex
    ∧ hex_DecodeString encrHex = (cookieEncrKey σ', None)
    ∧ securecookie_Encode (cookieAuthKey σ') (cookieEncrKey σ') = None
    ∧ notices σ' = notices σ.
Proof.
  unfold readConfig, bind, get, ReadFile.
  destruct (fs σ configFile) as [[|b]|] eqn:Hf; [done| |done].
  destruct (json_Unmarshal b (config σ)) as [c [e|]] eqn:Hu; [done|].
  unfold modify at 1.
  destruct (CookieAuthKeyHexStr c) as [authHex|] eqn:Ha; [|done].
  destruct (hex_DecodeString authHex) as [auth [e|]] eqn:Hda; [done|].
  unfold modify at 1.
  destruct (CookieEncrKeyHexStr c) as [encrHex|] eqn:He; [|done].
  destruct (hex_DecodeString encrHex) as [encr [e|]] eqn:Hde; [done|].
  unfold modify at 1.
  destruct (securecookie_Encode auth encr) as [e|] eqn:Hs.
  - unfold fmt_Printf, logger_Noticef, modify, ret. done.
  - unfold ret. intros [= <-]. exists b, authHex, encrHex. simpl. done.
Qed.

(** ** More on [NewApp], [findApp] and [main] *)

(** X21. [NewApp] returns a pointer to a new [App] with the given
    configuration and no store; the pointer is not in the registry, and
    no other [App] and no part of the registry is changed. *)
Theorem NewApp_fresh (σ σ' : State) (c : AppConfig) (app : loc) :
  registry_wf σ →
  NewApp c σ = Ret app σ' →
  heap σ !! app = None
  ∧ heap σ' !! app = Some (mkApp c None)
  ∧ (app ∉ Apps (appState σ'))
  ∧ appState σ' = appState σ
  ∧ (∀ l, l ≠ app → heap σ' !! l = heap σ !! l)
  ∧ registered σ' = registered σ.
Proof.
  intros Hwf Hnew.
  destruct (NewApp_wf _ _ _ _ Hwf Hnew) as (_ & Hnin & Ha).
  rewrite NewApp_eq in Hnew. injection Hnew as <- <-.
  split; [apply fresh_lookup|]. split; [done|]. split; [done|].
  split; [done|].
  assert (∀ l, l ≠ fresh (dom (heap σ)) →
            heap (set_heap (<[fresh (dom (heap σ)) := mkApp c None]> (heap σ)) σ)
              !! l = heap σ !! l) as Hne.
  { intros l Hl. simpl. by rewrite lookup_insert_ne. }
  split; [done|]. apply registered_ext; [done|].
  intros l Hl. apply Hne. intros ->. done.
Qed.

(** X22. [findApp] returns the first registered app with the requested
    name: the apps registered before the one it returns have other
    names. *)
Theorem findApp_first (σ σ' : State) (name : string) (l : loc) :
  findApp name σ = Ret (Some l) σ' →
  σ' = σ
  ∧ ∃ pre post (a : App),
      Apps (appState σ) = (pre ++ l :: post)%list
      ∧ heap σ !! l = Some a ∧ Name a = name
      ∧ ∀ l', l' ∈ pre → ∃ b : App, heap σ !! l' = Some b ∧ Name b ≠ name.
Proof.
  intros H. split; [by apply findApp_Ret in H|].
  unfold findApp, bind, get in H. revert H.
  induction (Apps (appState σ)) as [|p ps IH]; [done|].
  cbn [findApp_range]. unfold bind at 1.
  destruct (deref p σ) as [a σ1| |] eqn:E; [|done..].
  apply deref_Ret in E as [Ha ->].
  destruct (Name a =? name)%string eqn:En.
  - intros [= ->]. apply String.eqb_eq in En.
    exists [], ps, a. repeat (split; [done|]).
    intros l' Hl'. by apply elem_of_nil in Hl'.
  - apply String.eqb_neq in En. intros H.
    destruct (IH H) as (pre & post & a' & -> & Ha' & Hn & Hpre).
    exists (p :: pre), post, a'. repeat (split; [done|]).
    intros l' Hl'. apply elem_of_cons in Hl' as [->|Hl']; [eauto|].
    by apply Hpre.
Qed.

(** X23. [findApp] panics when it meets a nil pointer before an app with
    the requested name. *)
Theorem findApp_nil_pointer (σ : State) (name : string) (pre post : list loc)
    (p : loc) :
  Apps (appState σ) = (pre ++ p :: post)%list →
  heap σ !! p = None →
  (∀ l', l' ∈ pre → ∃ b : App, heap σ !! l' = Some b ∧ Name b ≠ name) →
  findApp name σ = Panic.
Proof.
  intros HA Hp Hpre. unfold findApp, bind, get. rewrite HA.
  rewrite (findApp_range_skip _ _ _ _ Hpre). cbn [findApp_range].
  unfold bind. by rewrite (deref_None _ _ Hp).
Qed.

Lemma main_range_unique cfgs σ σ' :
  registry_wf σ → NoDup (registered_names σ) →
  main_range cfgs σ = Ret tt σ' →
  registry_wf σ' ∧ NoDup (registered_names σ').
Proof.
  revert σ. induction cfgs as [|c rest IH]; intros σ Hwf Hnd.
  - by intros [= <-].
  - cbn [main_range]. unfold bind at 1.
    destruct (NewApp c σ) as [app σ1| |] eqn:Hnew; [|done..].
    pose proof (NewApp_wf _ _ _ _ Hwf Hnew) as (Hwf1 & Hnin & _).
    assert (registered σ1 = registered σ) as Hreg.
    { rewrite NewApp_eq in Hnew. injection Hnew as <- <-.
      apply registered_ext; [done|]. intros l Hl. simpl.
      rewrite lookup_insert_ne; [done|]. intros <-.
      apply Hwf in Hl. rewrite fresh_lookup in Hl. by destruct Hl. }
    unfold bind at 1.
    destruct (addApp app σ1) as [r σ2| |] eqn:Hadd; [|done..].
    pose proof (addApp_wf _ _ _ _ Hwf1 Hadd) as Hwf2.
    assert (NoDup (registered_names σ2)) as Hnd2.
    { eapply addApp_keeps_names_distinct; [exact Hwf1|exact Hnin| |exact Hadd].
      unfold registered_names. by rewrite Hreg. }
    unfold bind at 1. destruct (deref app σ2) as [a σ2'| |] eqn:Hd; [|done..].
    apply deref_Ret in Hd as [Ha ->].
    destruct r as [e|]; [done|].
    unfold bind at 1, logger_Noticef, modify. by apply IH.
Qed.

(** X24. From the initial state, when [main] reaches
    [srv.ListenAndServe] no two registered apps have the same name, and
    every pointer of the registry points to an [App]. *)
Theorem main_serves_unique_names (fl : Flags) (reload : bool) (f : FS)
    (s : Serving) (σ' : State) :
  main (initState fl reload f) = Ret s σ' →
  registry_wf σ' ∧ NoDup (registered_names σ').
Proof.
  intros Hmain.
  apply main_Ret_inv in Hmain as (σ1 & σ2 & Hrc & Hmr & _ & HA & HH & _).
  apply readConfig_frame in Hrc as (HA1 & HH1 & _).
  assert (appState σ1 = mkAppState [] []) as HA1'.
  { rewrite HA1. unfold production_switches. by destruct (inProduction _). }
  apply main_range_unique in Hmr as [Hwf Hnd].
  - split.
    + intros l Hl. rewrite HA in Hl. rewrite HH. by apply Hwf.
    + unfold registered_names, registered in *. by rewrite HA, HH.
  - intros l Hl. rewrite HA1' in Hl. by apply elem_of_nil in Hl.
  - unfold registered_names, registered. rewrite HA1'. constructor.
Qed.

End Further.

(** * The program on the inputs *)

Import inputs.
#[local] Existing Instance E.

(** [sample.TrimSpace] trims once and for all. *)
Lemma trimRight_cons c r :
  sample.trimRight (String c r)
  = match sample.trimRight r with
    | EmptyString =>
        if sample.asciiSpace c then EmptyString else String c EmptyString
    | r' => String c r'
    end.
Proof. reflexivity. Qed.

Lemma trimRight_idem s :
  sample.trimRight (sample.trimRight s) = sample.trimRight s.
Proof.
  induction s as [|c r IH]; [done|]. rewrite trimRight_cons.
  destruct (sample.trimRight r) as [|c' r'] eqn:E.
  - destruct (sample.asciiSpace c) eqn:Ec; [done|].
    rewrite trimRight_cons. cbn [sample.trimRight]. by rewrite Ec.
  - rewrite trimRight_cons. by rewrite IH.
Qed.

Lemma trimLeft_head s :
  match sample.trimLeft s with
  | String c _ => sample.asciiSpace c = false
  | EmptyString => True
  end.
Proof.
  induction s as [|c r IH]; [done|]. cbn [sample.trimLeft].
  destruct (sample.asciiSpace c) eqn:Ec; [done|]. done.
Qed.

Lemma trimLeft_trimRight c r :
  sample.asciiSpace c = false →
  sample.trimLeft (sample.trimRight (String c r)) = sample.trimRight (String c r).
Proof.
  intros Hc. rewrite trimRight_cons, Hc.
  destruct (sample.trimRight r); cbn [sample.trimLeft]; by rewrite Hc.
Qed.

Lemma TrimSpace_idem s :
  sample.TrimSpace (sample.TrimSpace s) = sample.TrimSpace s.
Proof.
  unfold sample.TrimSpace. pose proof (trimLeft_head s) as Hh.
  destruct (sample.trimLeft s) as [|c r]; [done|].
  rewrite (trimLeft_trimRight _ _ Hh). apply trimRight_idem.
Qed.

(** With [sample.TrimSpace], the loop of [main] keeps the registry's
    pointers valid and its names trimmed. *)
Lemma sample_main_range_inv home documents langs
    (σ σ' : @State (sample.externals home documents langs)) cfgs :
  registry_wf σ → names_trimmed σ →
  main_range cfgs σ = Ret tt σ' →
  registry_wf σ' ∧ names_trimmed σ'.
Proof. apply main_range_inv. exact TrimSpace_idem. Qed.

Lemma served_demo : heap served !! 0%nat = Some demo_app.
Proof. vm_compute. reflexivity. Defined.

Lemma served_wf : registry_wf served.
Proof.
  intros l Hl. change (Apps (appState served)) with [0%nat] in Hl.
  apply list_elem_of_singleton in Hl as ->. exists demo_app. exact served_demo.
Defined.

Lemma LangsCount_table_length_witness :
  LangsCount (Ext := E) 0%nat = 3
  ∧ (∀ app', LangsCount (Ext := E) app' = LangsCount (Ext := E) 0%nat)
  ∧ StringsCount 0%nat served = Ret 1 served
  ∧ UntranslatedCount 0%nat served = Ret 0 served
  ∧ EditsCount 0%nat served = Ret 2 served.
Proof.
  exact (LangsCount_table_length served 0%nat demo_app store1
           served_demo eq_refl).
Defined.

(** C1, as it is stated, fails: [demo] is served with a store whose index
    has one language, French, and [LangsCount] answers 3, the length of
    the table of languages. *)
Lemma LangsCount_counterexample :
  heap served !! 0%nat = Some demo_app
  ∧ store demo_app = Some store1
  ∧ store.languagesCount (store.index store1) = 1
  ∧ LangsCount (Ext := E) 0%nat = 3
  ∧ LangsCount (Ext := E) 0%nat ≠ StoreCsv_LangsCount (Externals := E) store1.
Proof.
  split; [exact served_demo|]. split; [reflexivity|].
  split; [reflexivity|]. split; [reflexivity|]. vm_compute. discriminate.
Qed.

(** C2, the failing input: the log file of [broken] exists and is not a
    log; [readAppData] answers that the data file doesn't exist, and
    the file is still there. *)
Theorem readAppData_present_file_reported_missing :
  let σ := start_with broken in
  let path := "../../data/broken/translations.csv"%string in
  heap σ !! 0%nat = Some (mkApp broken None)
  ∧ PathExists (fs σ) path = true
  ∧ ∃ σ', readAppData 0%nat σ = Ret (Some (missing_error path)) σ'
          ∧ PathExists (fs σ') path = true.
Proof.
  split; [vm_compute; reflexivity|]. split; [reflexivity|].
  exists (after (readAppData 0%nat) (start_with broken)).
  split; vm_compute; reflexivity.
Qed.

Lemma userIsAdmin_spec_witness :
  ∃ b, userIsAdmin 0%nat "alice" served = Ret b served
       ∧ (b = true ↔
          "alice"%string ≠ ""%string
          ∧ ("alice"%string = AdminTwitterUser demo_app
             ∨ "alice"%string = AdminTwitterUser2 demo_app)).
Proof. exact (userIsAdmin_spec served 0%nat demo_app "alice" served_demo). Defined.

Lemma findApp_resolves_witness :
  (∃ l (a : App), findApp "demo" served = Ret (Some l) served
      ∧ l ∈ Apps (appState served) ∧ heap served !! l = Some a
      ∧ Name a = "demo"%string)
  ∧ findApp "tool" served = Ret None served.
Proof.
  split.
  - apply (proj1 (findApp_resolves served "demo" served_wf)).
    exists 0%nat, demo_app. split; [left|]. split; [exact served_demo | reflexivity].
  - apply (proj2 (findApp_resolves served "tool" served_wf)).
    intros l a Hl Ha. change (Apps (appState served)) with [0%nat] in Hl.
    apply list_elem_of_singleton in Hl as ->.
    assert (Some a = Some demo_app) as Heq
      by (rewrite <- Ha; exact served_demo).
    injection Heq as ->. discriminate.
Defined.

Lemma addApp_invalid_field_witness :
  ∃ field,
    addApp 0%nat (start_with nosecret)
    = Ret (Some (Errorf "App has invalid field %q" [field]))
        (trimmed 0%nat (mkApp nosecret None) (start_with nosecret))
    ∧ missing (trimName (mkApp nosecret None)) field.
Proof.
  apply (addApp_invalid_field (start_with nosecret) 0%nat (mkApp nosecret None)).
  - vm_compute. reflexivity.
  - right. right. right. reflexivity.
Defined.

Lemma served_with_wf c : registry_wf (served_with c).
Proof.
  intros l Hl. change (Apps (appState (served_with c))) with [0%nat] in Hl.
  apply list_elem_of_singleton in Hl as ->. vm_compute. eauto.
Defined.

Lemma addApp_already_exists_witness :
  addApp 1%nat (served_with demo)
  = Ret (Some (errors_New "App already exists"))
      (trimmed 1%nat (mkApp demo None) (served_with demo))
  ∧ (Name demo_app ≠ strings_TrimSpace (Name tool)
     ∧ (names_trimmed (served_with tool) → Name demo_app ≠ Name tool)).
Proof.
  split.
  - assert (valid (trimName (mkApp demo None))) as Hv.
    { vm_compute. repeat split; discriminate. }
    apply (proj1 (addApp_already_exists (served_with demo) 1%nat
                    (mkApp demo None) (served_with_wf demo) eq_refl Hv)).
    exists 0%nat, demo_app. split; [left|]. split; [reflexivity|].
    left. reflexivity.
  - assert (valid (trimName (mkApp tool None))) as Hv.
    { vm_compute. repeat split; discriminate. }
    refine (proj2 (addApp_already_exists (served_with tool) 1%nat
                     (mkApp tool None) (served_with_wf tool) eq_refl Hv)
              (after (addApp 1%nat) (served_with tool)) _ 0%nat demo_app _ _).
    + vm_compute. reflexivity.
    + left.
    + reflexivity.
Defined.


Lemma addApp_atomic_witness :
  appState (after (addApp 1%nat) (served_with demo))
  = appState (served_with demo)
  ∧ Apps (appState (after (addApp 1%nat) (served_with tool)))
    = (Apps (appState (served_with tool)) ++ [1%nat])%list.
Proof.
  split.
  - refine (addApp_atomic (served_with demo)
              (after (addApp 1%nat) (served_with demo)) 1%nat
              (Some (errors_New "App already exists")) _).
    vm_compute. reflexivity.
  - refine (addApp_atomic (served_with tool)
              (after (addApp 1%nat) (served_with tool)) 1%nat None _).
    vm_compute. reflexivity.
Defined.

Lemma main_fatal_before_serving_witness :
  main (start "not json")
  = Exit (Fatalf "Failed reading config file %s. %s\n"
            [ArgString "config.json";
             ArgError (Errorf "json: cannot unmarshal" [])])
  ∧ main (start "demo twice")
    = Exit (Fatalf "Failed to add the app: %s, err: %s\n"
              [ArgString "demo"; ArgError (errors_New "App already exists")])
  ∧ main (start "no apps") = Exit (Fatalf "No apps defined in config.json" [])
  ∧ (Apps (appState served) ≠ []
     ∧ Forall2 (λ c l, ∃ a : App, heap served !! l = Some a ∧ initialized c a)
         (cfgApps (config served)) (Apps (appState served))).
Proof.
  split; [|split; [|split]].
  - refine (proj1 (main_fatal_before_serving flags0 true (files "not json"))
              (Errorf "json: cannot unmarshal" [])
              (after (readConfig "config.json") (start "not json")) _).
    vm_compute. reflexivity.
  - set (σ1 := after (readConfig "config.json") (start "demo twice")).
    set (σ2 := after (main_range [demo]) σ1).
    set (σ3 := after (NewApp demo) σ2).
    set (σ4 := after (addApp 1%nat) σ3).
    assert (readConfig "config.json"
              (production_switches (start "demo twice")) = Ret None σ1) as H1
      by (vm_compute; reflexivity).
    assert (cfgApps (config σ1) = ([demo] ++ demo :: [])%list) as H2
      by (vm_compute; reflexivity).
    assert (main_range [demo] σ1 = Ret tt σ2) as H3
      by (vm_compute; reflexivity).
    assert (NewApp demo σ2 = Ret 1%nat σ3) as H4
      by (vm_compute; reflexivity).
    assert (addApp 1%nat σ3 = Ret (Some (errors_New "App already exists")) σ4)
      as H5 by (vm_compute; reflexivity).
    destruct (proj1 (proj2 (main_fatal_before_serving flags0 true
                              (files "demo twice")))
                σ1 [demo] demo [] σ2 1%nat σ3
                (errors_New "App already exists") σ4 H1 H2 H3 H4 H5)
      as (a & Ha & Hmain).
    assert (Some a = Some (mkApp (App_AppConfig demo_app) None)) as Heq.
    { rewrite <- Ha. vm_compute. reflexivity. }
    injection Heq as ->. exact Hmain.
  - refine (proj1 (proj2 (proj2 (main_fatal_before_serving flags0 true
                                   (files "no apps"))))
              (after (readConfig "config.json") (start "no apps")) _ _);
      vm_compute; reflexivity.
  - refine (proj2 (proj2 (proj2 (main_fatal_before_serving flags0 true
                                   (files "demo"))))
              (mkServing None None ":5001") served _).
    vm_compute. reflexivity.
Defined.
